(** * Megaphone / soundboard component ([src/App.js])

    A shallow embedding of the [App] React component: its hook state
    ([isMicOn], [sounds], [permissionResponse]), the native modules it
    drives (the live audio stream recorder and the heap of expo-av sound
    objects), and its four handlers [toggleMic], [addSound], [playSound]
    and [removeSound], together with the mount effect and its cleanup.

    Handlers are written in a small state-and-exception monad that follows
    the statement order of the source.  Every [await] is resolved by a
    response supplied by the environment (the permission dialog, the
    document picker, the media loader, the wall clock); a handler runs to
    completion before the next event is dispatched, and the component is
    rendered again in between, so that the handler behind a button is the
    one of the current render.  What a handler reads from its render
    rather than from the state is a parameter of the handler. *)

From stdpp Require Import gmap strings list pretty.

Local Open Scope string_scope.
Local Open Scope list_scope.
Local Open Scope Z_scope.

(** ** JavaScript values and completions *)

(** What a handler can raise: a [TypeError] of the language itself, or the
    rejection of a promise returned by a native module. *)
Inductive Exn :=
| TypeError (msg : string)
| Rejected (msg : string).

(** The values a handler can hand back to its caller. *)
Inductive JsVal :=
| JsUndefined
| JsBool (b : bool).

(** Outcome of evaluating a statement list: a value or a raised exception. *)
Inductive Completion (A : Type) :=
| Normal (a : A)
| Throw (e : Exn).
Arguments Normal {A} a.
Arguments Throw {A} e.

(** [status] field of a permission response. *)
Inductive PermissionStatus := Granted | Denied | Undetermined.

#[global] Instance PermissionStatus_eq_dec : EqDecision PermissionStatus.
Proof. solve_decision. Defined.

(** [Number.prototype.toString] on an integer: its decimal text. *)
Definition Number_toString (n : Z) : string := pretty n.

(** ** Data of the component *)

(** One entry of [result.assets] (or the legacy result object itself, which
    carries [uri] and [name] directly).  A missing property reads as
    [None], i.e. [undefined]. *)
Record FileInfo := {
  file_uri : option string;
  file_name : option string
}.

(** The object resolved by [DocumentPicker.getDocumentAsync]. *)
Record PickResult := {
  pick_type : option string;
  pick_canceled : option bool;
  pick_assets : option (list FileInfo);
  pick_uri : option string;
  pick_name : option string
}.

(** Playback status of one expo-av [Sound] object. *)
Record PlaybackStatus := {
  isLoaded : bool;
  isPlaying : bool;
  positionMillis : Z
}.

(** The [newSound] object literal of [addSound]; [soundObj] is a reference
    into the heap of sound objects. *)
Record Sound := {
  sound_id : string;
  sound_name : option string;
  sound_uri : option string;
  soundObj : nat
}.

(** The [options] literal passed to [LiveAudioStream.init]. *)
Record StreamOptions := {
  sampleRate : Z;
  channels : Z;
  bitsPerSample : Z;
  audioSource : Z;
  bufferSize : Z
}.

Definition options : StreamOptions :=
  {| sampleRate := 32000; channels := 1; bitsPerSample := 16;
     audioSource := 6; bufferSize := 4096 |}.

(** What comes out of the device's speaker: a stretch of a clip, played
    by its sound object from position [from] for [dt] milliseconds, or a
    chunk captured by the microphone. *)
Inductive Audible :=
| ClipAudio (h : nat) (from : Z) (dt : nat)
| MicAudio (chunk : string).

(** Calls that leave the component, and the state setters, in program
    order. *)
Inductive Effect :=
| ERequestPermission
| ESetAudioMode
| EStreamInit (o : StreamOptions)
| EStreamOn (event : string)
| EStreamStart
| EStreamStop
| EAlert (title msg : string)
| EConsoleLog (msg : string) (err : Exn)
| EGetDocument
| ECreateSound (uri : option string)
| EStopAsync (h : nat)
| ESetPositionAsync (h : nat) (ms : Z)
| EPlayAsync (h : nat)
| EUnloadAsync (h : nat)
| EDateNow
| ESetIsMicOn (b : bool)
| ESetSounds.

(** The component together with the native modules it talks to.

    - [isMicOn], [sounds], [permissionResponse]: the three hooks;
    - [mounted]: whether the component is on screen;
    - [recording], [stream_config], [data_listener]: the live audio stream
      module (running or not, what [init] stored, whether a ['data']
      listener is registered);
    - [heap]: the expo-av sound objects, by reference;
    - [speaker]: everything the device has played so far, oldest first;
    - [trace]: every effect performed so far, oldest first. *)
Record World := {
  isMicOn : bool;
  sounds : list Sound;
  permissionResponse : option PermissionStatus;
  mounted : bool;
  recording : bool;
  stream_config : option StreamOptions;
  data_listener : bool;
  heap : gmap nat PlaybackStatus;
  speaker : list Audible;
  trace : list Effect
}.

Definition set_isMicOn (b : bool) (w : World) : World :=
  {| isMicOn := b; sounds := sounds w;
     permissionResponse := permissionResponse w; mounted := mounted w;
     recording := recording w; stream_config := stream_config w;
     data_listener := data_listener w; heap := heap w;
     speaker := speaker w; trace := trace w |}.

Definition set_sounds (l : list Sound) (w : World) : World :=
  {| isMicOn := isMicOn w; sounds := l;
     permissionResponse := permissionResponse w; mounted := mounted w;
     recording := recording w; stream_config := stream_config w;
     data_listener := data_listener w; heap := heap w;
     speaker := speaker w; trace := trace w |}.

Definition set_permissionResponse (p : option PermissionStatus) (w : World)
  : World :=
  {| isMicOn := isMicOn w; sounds := sounds w;
     permissionResponse := p; mounted := mounted w;
     recording := recording w; stream_config := stream_config w;
     data_listener := data_listener w; heap := heap w;
     speaker := speaker w; trace := trace w |}.

Definition set_mounted (b : bool) (w : World) : World :=
  {| isMicOn := isMicOn w; sounds := sounds w;
     permissionResponse := permissionResponse w; mounted := b;
     recording := recording w; stream_config := stream_config w;
     data_listener := data_listener w; heap := heap w;
     speaker := speaker w; trace := trace w |}.

Definition set_recording (b : bool) (w : World) : World :=
  {| isMicOn := isMicOn w; sounds := sounds w;
     permissionResponse := permissionResponse w; mounted := mounted w;
     recording := b; stream_config := stream_config w;
     data_listener := data_listener w; heap := heap w;
     speaker := speaker w; trace := trace w |}.

Definition set_stream_config (o : option StreamOptions) (w : World) : World :=
  {| isMicOn := isMicOn w; sounds := sounds w;
     permissionResponse := permissionResponse w; mounted := mounted w;
     recording := recording w; stream_config := o;
     data_listener := data_listener w; heap := heap w;
     speaker := speaker w; trace := trace w |}.

Definition set_data_listener (b : bool) (w : World) : World :=
  {| isMicOn := isMicOn w; sounds := sounds w;
     permissionResponse := permissionResponse w; mounted := mounted w;
     recording := recording w; stream_config := stream_config w;
     data_listener := b; heap := heap w;
     speaker := speaker w; trace := trace w |}.

Definition set_heap (m : gmap nat PlaybackStatus) (w : World) : World :=
  {| isMicOn := isMicOn w; sounds := sounds w;
     permissionResponse := permissionResponse w; mounted := mounted w;
     recording := recording w; stream_config := stream_config w;
     data_listener := data_listener w; heap := m;
     speaker := speaker w; trace := trace w |}.

Definition set_speaker (l : list Audible) (w : World) : World :=
  {| isMicOn := isMicOn w; sounds := sounds w;
     permissionResponse := permissionResponse w; mounted := mounted w;
     recording := recording w; stream_config := stream_config w;
     data_listener := data_listener w; heap := heap w;
     speaker := l; trace := trace w |}.

Definition log (e : Effect) (w : World) : World :=
  {| isMicOn := isMicOn w; sounds := sounds w;
     permissionResponse := permissionResponse w; mounted := mounted w;
     recording := recording w; stream_config := stream_config w;
     data_listener := data_listener w; heap := heap w;
     speaker := speaker w; trace := trace w ++ [e] |}.

(** ** The handler monad *)

Definition M (A : Type) : Type := World -> Completion A * World.

Definition ret {A} (a : A) : M A := fun w => (Normal a, w).

Definition throw {A} (e : Exn) : M A := fun w => (Throw e, w).

Definition bind {A B} (m : M A) (k : A -> M B) : M B :=
  fun w =>
    match m w with
    | (Normal a, w') => k a w'
    | (Throw e, w') => (Throw e, w')
    end.

(** [try { body } catch (err) { handler }]: whatever the body did to the
    world before raising stays done. *)
Definition try_catch {A} (body : M A) (handler : Exn -> M A) : M A :=
  fun w =>
    match body w with
    | (Normal a, w') => (Normal a, w')
    | (Throw e, w') => handler e w'
    end.

Notation "'do' x <- m ;; k" := (bind m (fun x => k))
  (at level 10, x name, m at level 99, k at level 200, only parsing).

Definition exec {A} (m : M A) (w : World) : World := snd (m w).
Definition completion {A} (m : M A) (w : World) : Completion A := fst (m w).

Definition read {A} (f : World -> A) : M A := fun w => (Normal (f w), w).
Definition modify (f : World -> World) : M unit := fun w => (Normal tt, f w).
Definition emit (e : Effect) : M unit := modify (log e).

(** ** Native modules *)

(** *** [LiveAudioStream] (react-native-live-audio-stream) *)

Definition LiveAudioStream_init (o : StreamOptions) : M unit :=
  do _ <- emit (EStreamInit o) ;;
  modify (set_stream_config (Some o)).

Definition LiveAudioStream_on (event : string) : M unit :=
  do _ <- emit (EStreamOn event) ;;
  modify (set_data_listener true).

Definition LiveAudioStream_start : M unit :=
  do _ <- emit EStreamStart ;;
  modify (set_recording true).

Definition LiveAudioStream_stop : M unit :=
  do _ <- emit EStreamStop ;;
  modify (set_recording false).

(** *** Permission hook, alerts, console, clock, picker *)

(** [requestPermission()]: resolves to the user's answer and stores it in
    the hook, so that [permissionResponse] shows it from then on. *)
Definition requestPermission (resp : PermissionStatus) : M PermissionStatus :=
  do _ <- emit ERequestPermission ;;
  do _ <- modify (set_permissionResponse (Some resp)) ;;
  ret resp.

Definition Audio_setAudioModeAsync : M unit := emit ESetAudioMode.

Definition Alert_alert (title msg : string) : M unit := emit (EAlert title msg).

Definition console_log (msg : string) (err : Exn) : M unit :=
  emit (EConsoleLog msg err).

Definition Date_now (now : Z) : M Z :=
  do _ <- emit EDateNow ;;
  ret now.

(** [DocumentPicker.getDocumentAsync]: resolves to a result object or
    rejects, as the environment decides. *)
Definition DocumentPicker_getDocumentAsync (pick : Completion PickResult)
  : M PickResult :=
  do _ <- emit EGetDocument ;;
  match pick with
  | Normal r => ret r
  | Throw e => throw e
  end.

(** *** expo-av [Sound] objects

    A sound object is a heap cell.  The playback calls reject on a sound
    that is not loaded and otherwise update its status; [unloadAsync]
    releases the media and resolves also when nothing was loaded. *)

Definition not_loaded : Exn :=
  Rejected "Cannot complete operation because sound is not loaded.".

(** What [createAsync] leaves behind with [{ shouldPlay: false }]. *)
Definition fresh_status : PlaybackStatus :=
  {| isLoaded := true; isPlaying := false; positionMillis := 0 |}.

(** A sound started anew from the beginning. *)
Definition restarted : PlaybackStatus :=
  {| isLoaded := true; isPlaying := true; positionMillis := 0 |}.

Definition unloaded_status : PlaybackStatus :=
  {| isLoaded := false; isPlaying := false; positionMillis := 0 |}.

(** [Audio.Sound.createAsync({ uri }, { shouldPlay: false })]: decoding
    succeeds or fails as the environment decides; on success a new sound
    object is allocated. *)
Definition Audio_Sound_createAsync (uri : option string)
    (load : Completion unit) : M nat :=
  do _ <- emit (ECreateSound uri) ;;
  match load with
  | Throw e => throw e
  | Normal _ =>
      do m <- read heap ;;
      let h := fresh (dom m) in
      do _ <- modify (set_heap (<[h := fresh_status]> m)) ;;
      ret h
  end.

(** Shared shape of [stopAsync], [setPositionAsync] and [playAsync]. *)
Definition on_loaded (h : nat) (f : PlaybackStatus -> PlaybackStatus)
  : M unit :=
  do m <- read heap ;;
  match m !! h with
  | Some st =>
      if isLoaded st then modify (set_heap (<[h := f st]> m))
      else throw not_loaded
  | None => throw not_loaded
  end.

Definition Sound_stopAsync (h : nat) : M unit :=
  do _ <- emit (EStopAsync h) ;;
  on_loaded h (fun st =>
    {| isLoaded := true; isPlaying := false; positionMillis := 0 |}).

Definition Sound_setPositionAsync (h : nat) (ms : Z) : M unit :=
  do _ <- emit (ESetPositionAsync h ms) ;;
  on_loaded h (fun st =>
    {| isLoaded := true; isPlaying := isPlaying st; positionMillis := ms |}).

Definition Sound_playAsync (h : nat) : M unit :=
  do _ <- emit (EPlayAsync h) ;;
  on_loaded h (fun st =>
    {| isLoaded := true; isPlaying := true;
       positionMillis := positionMillis st |}).

Definition Sound_unloadAsync (h : nat) : M unit :=
  do _ <- emit (EUnloadAsync h) ;;
  do m <- read heap ;;
  match m !! h with
  | Some _ => modify (set_heap (<[h := unloaded_status]> m))
  | None => ret tt
  end.

(** ** The component *)

(** [useState(false)], [useState([])], and the permission hook before it
    has anything to report. *)
Definition App_initial : World :=
  {| isMicOn := false; sounds := [];
     permissionResponse := None; mounted := true;
     recording := false; stream_config := None;
     data_listener := false; heap := ∅;
     speaker := []; trace := [] |}.

Definition setIsMicOn (b : bool) : M unit :=
  do _ <- emit (ESetIsMicOn b) ;;
  modify (set_isMicOn b).

(** [setSounds(prev => f(prev))] *)
Definition setSounds (f : list Sound -> list Sound) : M unit :=
  do _ <- emit ESetSounds ;;
  modify (fun w => set_sounds (f (sounds w)) w).

(** [permissionResponse?.status !== 'granted'] *)
Definition not_granted (p : option PermissionStatus) : bool :=
  negb (bool_decide (p = Some Granted)).

(** The ['data'] listener: its body holds comments only. *)
Definition on_data (data : string) : M unit := ret tt.

(** The effect run once after the first render. *)
Definition mount_effect (resp : PermissionStatus) : M unit :=
  do p <- read permissionResponse ;;
  do _ <- (if not_granted p
           then do _ <- requestPermission resp ;; ret tt
           else ret tt) ;;
  do _ <- Audio_setAudioModeAsync ;;
  do _ <- LiveAudioStream_init options ;;
  LiveAudioStream_on "data".

(** The function returned by the effect, run when the component leaves the
    screen. *)
Definition cleanup : M unit :=
  do _ <- LiveAudioStream_stop ;;
  modify (set_mounted false).

(** [toggleMic]; [resp] answers the permission request, should one be
    made.  The early [return] after the alert is the branch that does not
    reach [start]. *)
Definition toggleMic (resp : PermissionStatus) : M unit :=
  do on <- read isMicOn ;;
  if on then
    do _ <- LiveAudioStream_stop ;;
    setIsMicOn false
  else
    do p <- read permissionResponse ;;
    if not_granted p then
      do r <- requestPermission resp ;;
      if not_granted (Some r) then
        Alert_alert "Permission Required" "Microphone permission is needed."
      else
        do _ <- LiveAudioStream_start ;;
        setIsMicOn true
    else
      do _ <- LiveAudioStream_start ;;
      setIsMicOn true.

(** Truthiness of [result.canceled]. *)
Definition truthy (b : option bool) : bool := default false b.

(** [result.type === 'success' || !result.canceled] *)
Definition picked (r : PickResult) : bool :=
  bool_decide (pick_type r = Some "success") || negb (truthy (pick_canceled r)).

(** [result.assets ? result.assets[0] : result]; [None] is [undefined]
    (an empty array is truthy and has no first element). *)
Definition chosen_file (r : PickResult) : option FileInfo :=
  match pick_assets r with
  | Some fs => fs !! 0%nat
  | None => Some {| file_uri := pick_uri r; file_name := pick_name r |}
  end.

(** Reading a property of [file]: a [TypeError] when [file] is
    [undefined]. *)
Definition prop {A} (file : option FileInfo) (name : string)
    (get : FileInfo -> A) : M A :=
  match file with
  | Some f => ret (get f)
  | None =>
      throw (TypeError
        ("Cannot read properties of undefined (reading '" +:+ name +:+ "')"))
  end.

(** The [try] block of [addSound]. *)
Definition addSound_body (pick : Completion PickResult)
    (load : Completion unit) (now : Z) : M unit :=
  do result <- DocumentPicker_getDocumentAsync pick ;;
  if picked result then
    let file := chosen_file result in
    do uri <- prop file "uri" file_uri ;;
    do sound <- Audio_Sound_createAsync uri load ;;
    do t <- Date_now now ;;
    do name <- prop file "name" file_name ;;
    do uri' <- prop file "uri" file_uri ;;
    let newSound :=
      {| sound_id := Number_toString t; sound_name := name;
         sound_uri := uri'; soundObj := sound |} in
    setSounds (fun prev => prev ++ [newSound])
  else ret tt.

(** [addSound]; the environment supplies the picker's outcome [pick], the
    loader's outcome [load] and the clock reading [now]. *)
Definition addSound (pick : Completion PickResult) (load : Completion unit)
    (now : Z) : M unit :=
  try_catch (addSound_body pick load now)
            (fun err => console_log "Error picking file:" err).

(** [playSound(soundItem)] *)
Definition playSound (soundItem : Sound) : M unit :=
  try_catch
    (do _ <- Sound_stopAsync (soundObj soundItem) ;;
     do _ <- Sound_setPositionAsync (soundObj soundItem) 0 ;;
     Sound_playAsync (soundObj soundItem))
    (fun error => console_log "Playback failed" error).

(** [removeSound(id)]: the function body has no [return] statement, so the
    call completes with [undefined].  [rendered] is the [sounds] of the
    render the handler was created in: that is the list [find] searches,
    while the updater passed to [setSounds] filters the list of the
    moment. *)
Definition removeSound (rendered : list Sound) (id : string) : M JsVal :=
  let soundToFree :=
    List.find (fun s => bool_decide (sound_id s = id)) rendered in
  do _ <- match soundToFree with
          | Some s => Sound_unloadAsync (soundObj s)
          | None => ret tt
          end ;;
  do _ <- setSounds (fun prev => filter (fun s => sound_id s ≠ id) prev) ;;
  ret JsUndefined.

(** What the header and the scroll view show. *)
Definition status_text (w : World) : string :=
  if isMicOn w then "BROADCASTING" else "READY".

Definition render_sounds (w : World) : list (string * option string) :=
  map (fun item => (sound_id item, sound_name item)) (sounds w).

(** ** Events and reachable states *)

(** The native player plays every playing sound for [dt] milliseconds
    and moves it forward by as much. *)
Definition advance (dt : nat) (st : PlaybackStatus) : PlaybackStatus :=
  if isLoaded st && isPlaying st then
    {| isLoaded := true; isPlaying := true;
       positionMillis := positionMillis st + Z.of_nat dt |}
  else st.

Definition heard (dt : nat) (m : gmap nat PlaybackStatus) : list Audible :=
  omap (fun kv : nat * PlaybackStatus =>
          if isLoaded kv.2 && isPlaying kv.2
          then Some (ClipAudio kv.1 (positionMillis kv.2) dt)
          else None)
       (map_to_list m).

Definition elapse (dt : nat) : M unit :=
  modify (fun w => set_speaker (speaker w ++ heard dt (heap w))
                     (set_heap (advance dt <$> heap w) w)).

(** What can happen: a press on the microphone button, on ADD SOUND, on
    the play area of a card, a call of the current render's [removeSound]
    (the delete action of a card makes one, with the card's identifier), a
    chunk delivered by the recorder, time passing in the player, and the
    component leaving the screen. *)
Inductive Event :=
| PressMic (resp : PermissionStatus)
| PressAdd (pick : Completion PickResult) (load : Completion unit) (now : Z)
| PressPlay (i : nat)
| Remove (id : string)
| Data (chunk : string)
| Elapse (dt : nat)
| Unmount.

Definition dispatch (ev : Event) : M unit :=
  match ev with
  | PressMic resp => toggleMic resp
  | PressAdd pick load now => addSound pick load now
  | PressPlay i =>
      do l <- read sounds ;;
      match l !! i with
      | Some item => playSound item
      | None => ret tt
      end
  | Remove id =>
      do l <- read sounds ;;
      do _ <- removeSound l id ;;
      ret tt
  | Data chunk => on_data chunk
  | Elapse dt => elapse dt
  | Unmount => cleanup
  end.

(** The player and the recorder's listener do not depend on the component
    being on screen; its buttons do: once it is unmounted there is nothing
    to press. *)
Definition step (w : World) (ev : Event) : World :=
  match ev with
  | Elapse _ | Data _ => exec (dispatch ev) w
  | _ => if mounted w then exec (dispatch ev) w else w
  end.

Definition run (evs : list Event) (w : World) : World :=
  foldl step w evs.

(** The component after its first render and mount effect. *)
Definition App_mounted (resp : PermissionStatus) : World :=
  exec (mount_effect resp) App_initial.

Inductive reachable : World -> Prop :=
| reachable_mounted resp : reachable (App_mounted resp)
| reachable_step w ev : reachable w -> reachable (step w ev).

(** The effects a call adds to the trace. *)
Definition performed {A} (m : M A) (w : World) : list Effect :=
  drop (length (trace w)) (trace (exec m w)).

(** The identifiers on the board. *)
Definition ids (w : World) : list string := map sound_id (sounds w).

(** Sound objects that are audible: loaded and playing. *)
Definition voices (w : World) : nat :=
  size (filter (fun kv : nat * PlaybackStatus =>
                  isLoaded kv.2 && isPlaying kv.2 = true)
               (heap w)).

(** The asset a card was created from stays on the heap while the card is
    listed. *)
Definition listed_sounds_allocated (w : World) : Prop :=
  forall s, s ∈ sounds w -> is_Some (heap w !! soundObj s).

(** No sound object is playing. *)
Definition quiet (w : World) : Prop :=
  forall h st, heap w !! h = Some st -> isPlaying st = false.

(** What an event appended to the sound list. *)
Definition appended (w : World) (ev : Event) : list Sound :=
  match ev with
  | PressAdd _ _ _ => drop (length (sounds w)) (sounds (step w ev))
  | _ => []
  end.

(** Whether an effect is a call to [Date.now]. *)
Definition is_date_now (e : Effect) : bool :=
  match e with
  | EDateNow => true
  | _ => false
  end.

(** The clock reading an event consumed: the [now] of an add call that got
    as far as [Date.now()]. *)
Definition clock_reading (w : World) (ev : Event) : list Z :=
  match ev with
  | PressAdd _ _ now =>
      if mounted w && existsb is_date_now (performed (dispatch ev) w)
      then [now] else []
  | _ => []
  end.


(** ** The listing as the claim words it *)

(** The file an add call ends up adding, when the environment lets it go
    through: the picker resolves with a result that counts as picked and
    names a file, and the loader resolves. *)
Definition add_outcome (pick : Completion PickResult)
    (load : Completion unit) : option FileInfo :=
  match pick, load with
  | Normal r, Normal _ => if picked r then chosen_file r else None
  | _, _ => None
  end.

(** The card of a sound added at clock reading [now] from file [f]. *)
Definition card_of (now : Z) (f : FileInfo) : string * option string :=
  (Number_toString now, file_name f).

(** The cards an event inserts: one for an add call that goes through. *)
Definition inserted_spec (ev : Event) : list (string * option string) :=
  match ev with
  | PressAdd pick load now =>
      match add_outcome pick load with
      | Some f => [card_of now f]
      | None => []
      end
  | _ => []
  end.

(** "The remaining assets in insertion order", one operation at a time,
    written from the words of the claim and not from the handlers: an add
    that goes through puts its card last, a removal takes out the cards
    with the identifier removed, nothing else changes the listing. *)
Definition listing_step_spec (cards : list (string * option string))
    (ev : Event) : list (string * option string) :=
  match ev with
  | Remove id => filter (fun c => c.1 ≠ id) cards
  | _ => cards ++ inserted_spec ev
  end.

Definition listing_spec (evs : list Event)
    (cards : list (string * option string)) : list (string * option string) :=
  foldl listing_step_spec cards evs.

(** Every card ever inserted along a run, in the order of the adds. *)
Definition insertions_spec (evs : list Event)
  : list (string * option string) :=
  concat (map inserted_spec evs).

(** ** The rest of the rendered view *)

(** The entries of [THEME] the microphone section uses. *)
Definition THEME_secondary : string := "#03DAC6".
Definition THEME_onPrimary : string := "#000000".
Definition THEME_surface : string := "#1E1E1E".

Inductive Icon := Mic | MicOff.

(** The header indicator and the microphone section: the colour of the
    dot, the status text, whether [styles.micButtonActive] is applied,
    the icon with its colour, and the label under the button. *)
Record MicView := {
  dot_color : string;
  status_label : string;
  button_active : bool;
  icon : Icon;
  icon_color : string;
  mic_label : string
}.

Definition render_mic (w : World) : MicView :=
  {| dot_color := if isMicOn w then THEME_secondary else "#555";
     status_label := status_text w;
     button_active := isMicOn w;
     icon := if isMicOn w then Mic else MicOff;
     icon_color := if isMicOn w then THEME_onPrimary else THEME_surface;
     mic_label := if isMicOn w then "TAP TO MUTE" else "TAP TO BROADCAST" |}.

(** The scroll view: the placeholder when [sounds.length === 0], else one
    card per sound, keyed by its identifier. *)
Inductive Grid :=
| EmptyState (text : string)
| Cards (cards : list (string * option string)).

Definition render_grid (w : World) : Grid :=
  if bool_decide (length (sounds w) = 0%nat)
  then EmptyState "No sounds loaded"
  else Cards (render_sounds w).

(** The delete action of the card at position [i]:
    [onPress={() => removeSound(item.id)}]. *)
Definition pressDelete (i : nat) : M unit :=
  do l <- read sounds ;;
  match l !! i with
  | Some item => do _ <- removeSound l (sound_id item) ;; ret tt
  | None => ret tt
  end.

(** Every card has a sound object of its own, and that object is loaded. *)
Definition board_ok (w : World) : Prop :=
  NoDup (map soundObj (sounds w))
  /\ forall s, s ∈ sounds w ->
       exists st, heap w !! soundObj s = Some st /\ isLoaded st = true.

(** The alert of [toggleMic]. *)
Definition permission_alert : Effect :=
  EAlert "Permission Required" "Microphone permission is needed.".

(** ** A small session used in the examples *)

Definition sample_file : FileInfo :=
  {| file_uri := Some "file:///cache/horn.mp3";
     file_name := Some "horn.mp3" |}.

Definition sample_pick : Completion PickResult :=
  Normal {| pick_type := None; pick_canceled := Some false;
            pick_assets := Some [sample_file];
            pick_uri := None; pick_name := None |}.

Definition horn : Sound :=
  {| sound_id := "1000"; sound_name := Some "horn.mp3";
     sound_uri := Some "file:///cache/horn.mp3"; soundObj := 0 |}.

(** One clip added at clock reading 1000, started, and heard for a second
    and a half. *)
Definition horn_playing : World :=
  run [PressAdd sample_pick (Normal tt) 1000; PressPlay 0; Elapse 1500]
      (App_mounted Granted).

(** The microphone switched on and one chunk delivered by the recorder. *)
Definition broadcast_one_chunk : World :=
  run [PressMic Granted; Data "AAEC"] (App_mounted Granted).

(** Two clips added at the same clock reading: two cards, one
    identifier. *)
Definition two_horns : World :=
  run [PressAdd sample_pick (Normal tt) 1000;
       PressAdd sample_pick (Normal tt) 1000]
      (App_mounted Granted).

Definition second_horn : Sound :=
  {| sound_id := "1000"; sound_name := Some "horn.mp3";
     sound_uri := Some "file:///cache/horn.mp3"; soundObj := 1 |}.

(** The options with which [LiveAudioStream.init] was called, oldest
    first. *)
Definition stream_inits (l : list Effect) : list StreamOptions :=
  omap (fun e => match e with
                 | EStreamInit o => Some o
                 | _ => None
                 end) l.

(** ** Proof automation *)

(** Unfolds the handlers and the monad down to plain functions on
    [World]. *)
Ltac unfold_m :=
  unfold performed, exec, completion, toggleMic, addSound, addSound_body,
    playSound, removeSound, mount_effect, cleanup, elapse, on_data,
    DocumentPicker_getDocumentAsync, Audio_Sound_createAsync,
    Sound_stopAsync, Sound_setPositionAsync, Sound_playAsync,
    Sound_unloadAsync, on_loaded, prop,
    LiveAudioStream_init, LiveAudioStream_on, LiveAudioStream_start,
    LiveAudioStream_stop, requestPermission, Audio_setAudioModeAsync,
    Alert_alert, console_log, Date_now, setIsMicOn, setSounds,
    try_catch, emit, modify, read, bind, ret, throw in *.

(** Runs one event symbolically and splits on every branch taken. *)
Ltac crush_step :=
  unfold step, dispatch; unfold_m; simpl;
  repeat (case_match; simplify_eq/=; try done);
  try done.

(** Rewrites the effects of a call into a plain list. *)
Ltac perf := rewrite <- ?app_assoc, ?drop_app_length; simpl.

(** Splits on every heap lookup that an event leaves behind; a lookup at
    a newly allocated reference finds nothing. *)
Ltac heap_cases :=
  repeat (rewrite lookup_insert in * || rewrite lookup_fmap in * );
  repeat (case_decide; simplify_eq/=);
  repeat match goal with
         | H : ?m !! fresh (dom ?m) = Some _ |- _ =>
             apply elem_of_dom_2 in H; by apply is_fresh in H
         end.

Local Set Warnings "-clear-no-such-hyp".

(** * Properties *)


Lemma performed_app {A} (m : M A) (w : World) (l : list Effect) :
  trace (exec m w) = trace w ++ l -> performed m w = l.
Proof.
  intros H. unfold performed. rewrite H. apply drop_app_length.
Qed.

Lemma reachable_run (evs : list Event) (w : World) :
  reachable w -> reachable (run evs w).
Proof.
  revert w. induction evs as [| ev evs IH]; intros w Hr; simpl; [done |].
  by apply IH, reachable_step.
Qed.

Lemma not_granted_true (p : option PermissionStatus) :
  p <> Some Granted -> not_granted p = true.
Proof.
  intros H. unfold not_granted. rewrite bool_decide_eq_false_2; done.
Qed.

Lemma not_granted_resp (r : PermissionStatus) :
  r <> Granted -> not_granted (Some r) = true.
Proof. intros H. apply not_granted_true. congruence. Qed.

(** ** Starting without permission *)

(** C4.  When the microphone is off, permission is not already granted and
    the request made by [toggleMic] is answered with anything but
    'granted', the call leaves [isMicOn] false and the recorder as it was,
    and all it does is ask for the permission and raise the alert:
    [LiveAudioStream.start] is never reached. *)
Theorem toggleMic_denied_stays_idle (resp : PermissionStatus) (w : World) :
  isMicOn w = false ->
  permissionResponse w <> Some Granted ->
  resp <> Granted ->
  isMicOn (exec (toggleMic resp) w) = false
  /\ recording (exec (toggleMic resp) w) = recording w
  /\ performed (toggleMic resp) w =
       [ERequestPermission;
        EAlert "Permission Required" "Microphone permission is needed."]
  /\ EStreamStart ∉ performed (toggleMic resp) w.
Proof.
  intros Hoff Hperm Hresp.
  assert (Htr : trace (exec (toggleMic resp) w) = trace w ++
            [ERequestPermission;
             EAlert "Permission Required" "Microphone permission is needed."]).
  { unfold_m. rewrite Hoff, (not_granted_true _ Hperm). simpl.
    rewrite (not_granted_resp _ Hresp). simpl. by rewrite <- app_assoc. }
  apply performed_app in Htr. rewrite Htr.
  split_and!; [| | done |].
  - unfold_m. rewrite Hoff, (not_granted_true _ Hperm). simpl.
    by rewrite (not_granted_resp _ Hresp).
  - unfold_m. rewrite Hoff, (not_granted_true _ Hperm). simpl.
    by rewrite (not_granted_resp _ Hresp).
  - intros Hin. repeat (apply elem_of_cons in Hin as [Hin | Hin]; [done |]).
    by apply elem_of_nil in Hin.
Qed.

Lemma toggleMic_denied_stays_idle_witness :
  isMicOn (exec (toggleMic Denied) (App_mounted Denied)) = false
  /\ recording (exec (toggleMic Denied) (App_mounted Denied)) =
       recording (App_mounted Denied)
  /\ performed (toggleMic Denied) (App_mounted Denied) =
       [ERequestPermission;
        EAlert "Permission Required" "Microphone permission is needed."]
  /\ EStreamStart ∉ performed (toggleMic Denied) (App_mounted Denied).
Proof.
  apply (toggleMic_denied_stays_idle Denied (App_mounted Denied)).
  - reflexivity.
  - vm_compute. discriminate.
  - discriminate.
Defined.

(** ** Adding a sound *)

(** C10.  When the picker resolves with [canceled] true and a [type] other
    than 'success', [addSound] creates no sound object and changes no
    state: all that happened is the call to the picker. *)
Theorem addSound_canceled_noop (r : PickResult) (load : Completion unit)
    (now : Z) (w : World) :
  pick_canceled r = Some true ->
  pick_type r <> Some "success" ->
  exec (addSound (Normal r) load now) w = log EGetDocument w
  /\ sounds (exec (addSound (Normal r) load now) w) = sounds w
  /\ heap (exec (addSound (Normal r) load now) w) = heap w
  /\ performed (addSound (Normal r) load now) w = [EGetDocument].
Proof.
  intros Hc Ht.
  assert (Hp : picked r = false).
  { unfold picked. rewrite Hc, bool_decide_eq_false_2; done. }
  assert (He : exec (addSound (Normal r) load now) w = log EGetDocument w).
  { unfold_m. simpl. by rewrite Hp. }
  split_and!; [done | by rewrite He | by rewrite He |].
  apply performed_app. by rewrite He.
Qed.

Lemma addSound_canceled_noop_witness :
  let r := {| pick_type := None; pick_canceled := Some true;
              pick_assets := None; pick_uri := None; pick_name := None |} in
  let w := App_mounted Granted in
  exec (addSound (Normal r) (Normal tt) 1000) w = log EGetDocument w
  /\ sounds (exec (addSound (Normal r) (Normal tt) 1000) w) = sounds w
  /\ heap (exec (addSound (Normal r) (Normal tt) 1000) w) = heap w
  /\ performed (addSound (Normal r) (Normal tt) 1000) w = [EGetDocument].
Proof.
  intros r w.
  apply (addSound_canceled_noop r (Normal tt) 1000 w).
  - reflexivity.
  - discriminate.
Defined.

(** What makes the [try] block of [addSound] raise: the picker rejects, or
    the result counts as picked and either there is no file to read [uri]
    from or the loader rejects. *)
Lemma addSound_body_throws (pick : Completion PickResult)
    (load : Completion unit) (now : Z) (w : World) (e : Exn) :
  completion (addSound_body pick load now) w = Throw e <->
  pick = Throw e
  \/ exists r, pick = Normal r /\ picked r = true /\
       ((chosen_file r = None /\
         e = TypeError "Cannot read properties of undefined (reading 'uri')")
        \/ (is_Some (chosen_file r) /\ load = Throw e)).
Proof.
  unfold_m. destruct pick as [r | e0]; simpl.
  - destruct (picked r) eqn:Hp; simpl.
    + destruct (chosen_file r) as [f |] eqn:Hf; simpl.
      * destruct load as [[] | e1]; simpl.
        -- split; [done |].
           intros [? | (r' & [= <-] & _ & [[? _] | [_ ?]])]; congruence.
        -- split.
           ++ intros [= <-]. right. exists r. naive_solver.
           ++ intros [? | (r' & [= <-] & _ & [[? _] | [_ ?]])]; congruence.
      * split.
        -- intros [= <-]. right. exists r. naive_solver.
        -- intros [? | (r' & [= <-] & _ & [[_ ->] | [[? ?] _]])];
             first [reflexivity | congruence].
    + split; [done |].
      intros [? | (r' & [= <-] & ? & _)]; congruence.
  - split.
    + intros [= ->]. by left.
    + intros [[= ->] | (r' & ? & _)]; done.
Qed.

(** C5.  When the [try] block of [addSound] raises, whatever the cause,
    the sound list (hence its order), the broadcasting flag, the recorder,
    the permission and every sound object are as before the call; the
    error is logged and nothing else. *)
Theorem addSound_failure_keeps_state (pick : Completion PickResult)
    (load : Completion unit) (now : Z) (w : World) (e : Exn) :
  completion (addSound_body pick load now) w = Throw e ->
  sounds (exec (addSound pick load now) w) = sounds w
  /\ isMicOn (exec (addSound pick load now) w) = isMicOn w
  /\ recording (exec (addSound pick load now) w) = recording w
  /\ permissionResponse (exec (addSound pick load now) w) =
       permissionResponse w
  /\ heap (exec (addSound pick load now) w) = heap w
  /\ completion (addSound pick load now) w = Normal tt
  /\ last (trace (exec (addSound pick load now) w)) =
       Some (EConsoleLog "Error picking file:" e).
Proof.
  intros H. apply addSound_body_throws in H
    as [-> | (r & -> & Hp & [[Hf ->] | [[f Hf] ->]])].
  - unfold_m. simpl. split_and!; try done. by rewrite last_snoc.
  - unfold_m. simpl. rewrite Hp, Hf. simpl.
    split_and!; try done. by rewrite last_snoc.
  - unfold_m. simpl. rewrite Hp, Hf. simpl.
    split_and!; try done. by rewrite last_snoc.
Qed.

Lemma addSound_failure_keeps_state_witness :
  let pick : Completion PickResult := Throw (Rejected "picker failed") in
  let w := App_mounted Granted in
  sounds (exec (addSound pick (Normal tt) 7) w) = sounds w
  /\ isMicOn (exec (addSound pick (Normal tt) 7) w) = isMicOn w
  /\ recording (exec (addSound pick (Normal tt) 7) w) = recording w
  /\ permissionResponse (exec (addSound pick (Normal tt) 7) w) =
       permissionResponse w
  /\ heap (exec (addSound pick (Normal tt) 7) w) = heap w
  /\ completion (addSound pick (Normal tt) 7) w = Normal tt
  /\ last (trace (exec (addSound pick (Normal tt) 7) w)) =
       Some (EConsoleLog "Error picking file:" (Rejected "picker failed")).
Proof.
  intros pick w.
  apply (addSound_failure_keeps_state pick (Normal tt) 7 w
           (Rejected "picker failed")).
  reflexivity.
Defined.

(** ** Removing a sound *)

Lemma find_absent (id : string) (l : list Sound) :
  id ∉ map sound_id l ->
  List.find (fun s => bool_decide (sound_id s = id)) l = None.
Proof.
  induction l as [| s l IH]; simpl; [done |].
  intros Hn. apply not_elem_of_cons in Hn as [Hne Hn].
  rewrite bool_decide_eq_false_2 by done. by apply IH.
Qed.

Lemma filter_absent (id : string) (l : list Sound) :
  id ∉ map sound_id l -> filter (fun s => sound_id s ≠ id) l = l.
Proof.
  induction l as [| s l IH]; simpl; [done |].
  intros Hn. apply not_elem_of_cons in Hn as [Hne Hn].
  rewrite filter_cons_True by done. f_equal. by apply IH.
Qed.

Lemma filter_removes (id : string) (l : list Sound) :
  id ∉ map sound_id (filter (fun s => sound_id s ≠ id) l).
Proof.
  intros Hin. apply list_elem_of_fmap in Hin as (s & -> & Hs).
  apply list_elem_of_filter in Hs as [Hne _]. done.
Qed.

(** C6 (as the code has it).  [removeSound] on an identifier that is not
    in the list completes with [undefined]; it unloads nothing and the
    list it stores is the list it found. *)
Theorem removeSound_unknown_id (id : string) (w : World) :
  id ∉ ids w ->
  completion (removeSound (sounds w) id) w = Normal JsUndefined
  /\ sounds (exec (removeSound (sounds w) id) w) = sounds w
  /\ heap (exec (removeSound (sounds w) id) w) = heap w
  /\ performed (removeSound (sounds w) id) w = [ESetSounds].
Proof.
  intros Hn. unfold ids in Hn.
  pose proof (find_absent id (sounds w) Hn) as Hf.
  pose proof (filter_absent id (sounds w) Hn) as Hfl.
  unfold_m. simpl. rewrite Hf. simpl.
  split_and!; [done | done | done |].
  by rewrite drop_app_length.
Qed.

Lemma removeSound_unknown_id_witness :
  completion (removeSound (sounds horn_playing) "2000") horn_playing = Normal JsUndefined
  /\ sounds (exec (removeSound (sounds horn_playing) "2000") horn_playing) = sounds horn_playing
  /\ heap (exec (removeSound (sounds horn_playing) "2000") horn_playing) = heap horn_playing
  /\ performed (removeSound (sounds horn_playing) "2000") horn_playing = [ESetSounds].
Proof.
  apply (removeSound_unknown_id "2000" horn_playing).
  vm_compute. intros H.
  apply elem_of_cons in H as [H | H]; [discriminate |].
  by apply elem_of_nil in H.
Defined.

(** C6, the claim as stated, fails: with an empty list, every identifier
    is unknown, and the call completes with [undefined], not [false]. *)
Lemma removeSound_unknown_id_not_false :
  ("2000" ∉ ids (App_mounted Granted))
  /\ completion (removeSound (sounds (App_mounted Granted)) "2000")
                  (App_mounted Granted)
       = Normal JsUndefined
  /\ completion (removeSound (sounds (App_mounted Granted)) "2000")
                  (App_mounted Granted)
       <> Normal (JsBool false).
Proof.
  split_and!.
  - vm_compute. apply not_elem_of_nil.
  - reflexivity.
  - discriminate.
Qed.

(** [removeSound] on a listed identifier whose first entry has a heap
    cell. *)
Lemma removeSound_unloads_allocated (id : string) (w : World) (s : Sound)
    (st : PlaybackStatus) :
  List.find (fun s => bool_decide (sound_id s = id)) (sounds w) = Some s ->
  heap w !! soundObj s = Some st ->
  heap (exec (removeSound (sounds w) id) w) =
    <[soundObj s := unloaded_status]> (heap w)
  /\ heap (exec (removeSound (sounds w) id) w) !! soundObj s = Some unloaded_status
  /\ sounds (exec (removeSound (sounds w) id) w) =
       filter (fun s => sound_id s ≠ id) (sounds w)
  /\ (id ∉ ids (exec (removeSound (sounds w) id) w))
  /\ performed (removeSound (sounds w) id) w = [EUnloadAsync (soundObj s); ESetSounds].
Proof.
  intros Hf Hh. unfold ids. unfold_m. simpl. rewrite Hf. simpl.
  rewrite Hh. simpl.
  split_and!; [done | apply lookup_insert_eq | done | apply filter_removes |].
  by rewrite <- app_assoc, drop_app_length.
Qed.

(** C3, the claim as stated, fails: the clip is listed and playing, and
    right after [removeSound] its sound object is unloaded. *)
Lemma removeSound_unloads_playing_sound :
  sounds horn_playing = [horn]
  /\ heap horn_playing !! soundObj horn =
       Some {| isLoaded := true; isPlaying := true; positionMillis := 1500 |}
  /\ heap (exec (removeSound (sounds horn_playing) "1000") horn_playing) !! soundObj horn =
       Some {| isLoaded := false; isPlaying := false; positionMillis := 0 |}.
Proof. split_and!; reflexivity. Qed.

(** ** Playing a sound *)

(** C2 (as the code has it).  [playSound] on a loaded sound stops it,
    rewinds it and starts it again, all on the one sound object of the
    card: that object ends up playing from position 0, no sound object is
    created, every other one is untouched, and a sound that was already
    playing still counts as a single voice. *)
Theorem playSound_restarts_same_object (item : Sound) (w : World)
    (st : PlaybackStatus) :
  heap w !! soundObj item = Some st ->
  isLoaded st = true ->
  heap (exec (playSound item) w) = <[soundObj item := restarted]> (heap w)
  /\ dom (heap (exec (playSound item) w)) = dom (heap w)
  /\ performed (playSound item) w =
       [EStopAsync (soundObj item); ESetPositionAsync (soundObj item) 0;
        EPlayAsync (soundObj item)]
  /\ sounds (exec (playSound item) w) = sounds w
  /\ (isPlaying st = true -> voices (exec (playSound item) w) = voices w).
Proof.
  intros Hh Hl.
  assert (He : heap (exec (playSound item) w)
               = <[soundObj item := restarted]> (heap w)).
  { unfold_m. simpl. rewrite Hh, Hl. simpl.
    rewrite lookup_insert_eq. simpl. rewrite lookup_insert_eq. simpl.
    by rewrite !insert_insert_eq. }
  split_and!.
  - done.
  - rewrite He, dom_insert_L. apply subseteq_union_1_L.
    apply singleton_subseteq_l. by apply elem_of_dom_2 in Hh.
  - unfold_m. simpl. rewrite Hh, Hl. simpl.
    rewrite lookup_insert_eq. simpl. rewrite lookup_insert_eq. simpl.
    by rewrite <- !app_assoc, drop_app_length.
  - unfold_m. simpl. rewrite Hh, Hl. simpl.
    rewrite lookup_insert_eq. simpl. by rewrite lookup_insert_eq.
  - intros Hp. unfold voices. rewrite He.
    rewrite map_filter_insert_True by done.
    apply map_size_insert_Some. exists st.
    apply map_lookup_filter_Some. split; [done |]. simpl. by rewrite Hl, Hp.
Qed.

Lemma playSound_restarts_same_object_witness :
  heap (exec (playSound horn) horn_playing) =
    <[soundObj horn := restarted]> (heap horn_playing)
  /\ dom (heap (exec (playSound horn) horn_playing)) = dom (heap horn_playing)
  /\ performed (playSound horn) horn_playing =
       [EStopAsync (soundObj horn); ESetPositionAsync (soundObj horn) 0;
        EPlayAsync (soundObj horn)]
  /\ sounds (exec (playSound horn) horn_playing) = sounds horn_playing
  /\ (isPlaying {| isLoaded := true; isPlaying := true;
                   positionMillis := 1500 |} = true ->
      voices (exec (playSound horn) horn_playing) = voices horn_playing).
Proof.
  apply (playSound_restarts_same_object horn horn_playing
           {| isLoaded := true; isPlaying := true; positionMillis := 1500 |}).
  - reflexivity.
  - reflexivity.
Defined.

(** C2, the claim as stated, fails: the clip is playing, a second and a
    half in; triggering it again leaves one voice, not two, and the one
    there was is back at position 0. *)
Lemma playSound_again_is_not_a_second_voice :
  heap horn_playing !! soundObj horn =
    Some {| isLoaded := true; isPlaying := true; positionMillis := 1500 |}
  /\ voices horn_playing = 1%nat
  /\ voices (exec (playSound horn) horn_playing) = 1%nat
  /\ size (heap (exec (playSound horn) horn_playing)) = 1%nat
  /\ heap (exec (playSound horn) horn_playing) !! soundObj horn =
       Some {| isLoaded := true; isPlaying := true; positionMillis := 0 |}.
Proof. split_and!; vm_compute; reflexivity. Qed.

(** ** The recorder's chunks and the speaker *)

Lemma heard_quiet (dt : nat) (m : gmap nat PlaybackStatus) :
  (forall h st, m !! h = Some st -> isPlaying st = false) ->
  heard dt m = [].
Proof.
  intros Hq. unfold heard.
  assert (Hl : forall kv, kv ∈ map_to_list m -> isPlaying kv.2 = false).
  { intros [h st] Hin. apply elem_of_map_to_list in Hin. by eapply Hq. }
  induction (map_to_list m) as [| kv l IH]; simpl; [done |].
  rewrite (Hl kv) by apply list_elem_of_here.
  rewrite andb_false_r. apply IH. intros kv' Hin.
  by apply Hl, list_elem_of_further.
Qed.

Lemma advance_not_playing (dt : nat) (st : PlaybackStatus) :
  isPlaying st = false -> advance dt st = st.
Proof. intros Hp. unfold advance. by rewrite Hp, andb_false_r. Qed.

(** As long as no play area is pressed, no sound object starts playing
    and nothing comes out of the speaker. *)
Lemma step_quiet (w : World) (ev : Event) :
  (forall i, ev <> PressPlay i) ->
  quiet w -> speaker w = [] ->
  quiet (step w ev) /\ speaker (step w ev) = [].
Proof.
  intros Hne Hq Hs.
  destruct ev as [resp | pick load now | i | id | chunk | dt |];
    try (by destruct (Hne i)).
  - split; [intros h st | ]; crush_step; first [done | by eapply Hq].
  - split; [intros h st | ]; crush_step; heap_cases;
      first [done | by eapply Hq | by intros [= <-]].
  - split; [intros h st | ]; crush_step; heap_cases;
      first [done | by eapply Hq | by intros [= <-]].
  - split; [intros h st | ]; crush_step; first [done | by eapply Hq].
  - split.
    + intros h st. crush_step. rewrite lookup_fmap.
      destruct (heap w !! h) as [st0 |] eqn:Hh; simpl; [| done].
      intros [= <-]. rewrite advance_not_playing; by eapply Hq.
    + crush_step. by rewrite Hs, heard_quiet.
  - split; [intros h st | ]; crush_step; first [done | by eapply Hq].
Qed.

(** C1 (as the code has it).  In a session in which no clip is
    triggered, from the mounted component and through any presses on the
    microphone button, any chunks delivered by the recorder, any adds and
    removals and any lapse of time, nothing comes out of the speaker and
    no sound object plays: the ['data'] listener drops every chunk it is
    handed. *)
Theorem data_listener_discards (evs : list Event) (resp : PermissionStatus) :
  (forall i, PressPlay i ∉ evs) ->
  speaker (run evs (App_mounted resp)) = []
  /\ quiet (run evs (App_mounted resp)).
Proof.
  intros Hno.
  assert (Hgen : forall w, quiet w -> speaker w = [] ->
                   speaker (run evs w) = [] /\ quiet (run evs w)).
  { induction evs as [| ev evs IH]; intros w Hq Hs; simpl; [done |].
    destruct (step_quiet w ev) as [Hq' Hs']; try done.
    - intros i ->. apply (Hno i), list_elem_of_here.
    - apply IH; try done. intros i Hi.
      by apply (Hno i), list_elem_of_further. }
  apply Hgen.
  - intros h st Hh. by destruct resp.
  - by destruct resp.
Qed.

Lemma data_listener_discards_witness :
  let evs := [PressMic Granted; Data "AAEC";
              PressAdd sample_pick (Normal tt) 1000; Elapse 10;
              Data "AQID"] in
  speaker (run evs (App_mounted Granted)) = []
  /\ quiet (run evs (App_mounted Granted)).
Proof.
  intros evs. apply (data_listener_discards evs Granted).
  intros i Hin. unfold evs in Hin.
  repeat (apply elem_of_cons in Hin as [Hin | Hin]; [discriminate |]).
  by apply elem_of_nil in Hin.
Defined.

(** C1, the claim as stated, fails: the microphone is on, no clip is
    triggered, the recorder has delivered one chunk, and nothing has come
    out of the speaker, so the output is not the captured stream, at any
    gain. *)
Lemma captured_chunk_not_on_output :
  recording broadcast_one_chunk = true
  /\ speaker broadcast_one_chunk = []
  /\ speaker broadcast_one_chunk <> [MicAudio "AAEC"]
  /\ length (speaker broadcast_one_chunk) <> length [MicAudio "AAEC"].
Proof. split_and!; [reflexivity | reflexivity | discriminate | discriminate]. Qed.

(** The speaker is not silent by nature: a clip that plays is heard. *)
Lemma playing_clip_is_heard :
  speaker horn_playing = [ClipAudio 0 0 1500].
Proof. vm_compute. reflexivity. Qed.

(** ** The sound list along a run *)

(** A successful [addSound] appends exactly the new entry, named after
    the clock reading and pointing to a newly allocated sound object. *)
Lemma addSound_appends (r : PickResult) (f : FileInfo) (now : Z)
    (w : World) :
  picked r = true ->
  chosen_file r = Some f ->
  sounds (exec (addSound (Normal r) (Normal tt) now) w) =
    sounds w ++ [{| sound_id := Number_toString now;
                    sound_name := file_name f; sound_uri := file_uri f;
                    soundObj := fresh (dom (heap w)) |}]
  /\ heap (exec (addSound (Normal r) (Normal tt) now) w) =
       <[fresh (dom (heap w)) := fresh_status]> (heap w)
  /\ heap w !! fresh (dom (heap w)) = None.
Proof.
  intros Hp Hf. unfold_m. simpl. rewrite Hp, Hf. split_and!; [done | done |].
  apply not_elem_of_dom, is_fresh.
Qed.

(** How one event changes the list.  Either what is left is a selection
    from what was there and nothing was appended; or the event is an add
    call that read the clock, and the list grew at its end by one entry
    whose identifier is the text of that reading and whose sound object is
    allocated. *)
Lemma step_sounds (w : World) (ev : Event) :
  (sounds (step w ev) `sublist_of` sounds w /\ appended w ev = [])
  \/ (exists pick load now s,
        ev = PressAdd pick load now
        /\ sound_id s = Number_toString now
        /\ sounds (step w ev) = sounds w ++ [s]
        /\ clock_reading w ev = [now]
        /\ is_Some (heap (step w ev) !! soundObj s)).
Proof.
  destruct ev as [resp | pick load now | i | id | chunk | dt |].
  - left. split; [| done]. by replace (sounds _) with (sounds w) by crush_step.
  - assert (Hsame : sounds (step w (PressAdd pick load now)) = sounds w ->
      sounds (step w (PressAdd pick load now)) `sublist_of` sounds w
      /\ appended w (PressAdd pick load now) = []).
    { intros He. unfold appended. rewrite He. split; [done | apply drop_all]. }
    unfold clock_reading.
    unfold step in *. destruct (mounted w); [| by left; apply Hsame].
    unfold dispatch in *. unfold_m. simpl in *.
    destruct pick as [r | e]; simpl in *; [| by left; apply Hsame].
    destruct (picked r); simpl in *; [| by left; apply Hsame].
    destruct (chosen_file r) as [f |]; simpl in *; [| by left; apply Hsame].
    destruct load as [[] | e]; simpl in *; [| by left; apply Hsame].
    right. eexists _, _, _, _. split_and!; [done | | done | |].
    + done.
    + by rewrite <- !app_assoc, drop_app_length.
    + simpl. by rewrite lookup_insert_eq.
  - left. split; [| done]. by replace (sounds _) with (sounds w) by crush_step.
  - left. split; [| done].
    unfold step. destruct (mounted w); [| done].
    replace (sounds _) with (filter (fun s => sound_id s ≠ id) (sounds w))
      by crush_step.
    apply sublist_filter.
  - left. split; [| done]. by replace (sounds _) with (sounds w) by crush_step.
  - left. split; [| done]. by replace (sounds _) with (sounds w) by crush_step.
  - left. split; [| done]. by replace (sounds _) with (sounds w) by crush_step.
Qed.

Lemma render_filter (id : string) (l : list Sound) :
  map (fun item => (sound_id item, sound_name item))
      (filter (fun s => sound_id s ≠ id) l) =
  filter (fun c : string * option string => c.1 ≠ id)
         (map (fun item => (sound_id item, sound_name item)) l).
Proof.
  induction l as [| s l IH]; simpl; [done |].
  destruct (decide (sound_id s ≠ id)) as [Hne | He].
  - rewrite !filter_cons_True by done. simpl. by rewrite IH.
  - rewrite !filter_cons_False by done. done.
Qed.

Lemma step_mounted (w : World) (ev : Event) :
  ev <> Unmount -> mounted (step w ev) = mounted w.
Proof. intros Hne. destruct ev; crush_step. Qed.

(** One event changes the rendered cards as the listing says. *)
Lemma step_render (w : World) (ev : Event) :
  mounted w = true ->
  ev <> Unmount ->
  render_sounds (step w ev) = listing_step_spec (render_sounds w) ev.
Proof.
  intros Hm Hne. unfold render_sounds.
  destruct ev as [resp | pick load now | i | id | chunk | dt |]; try done.
  - replace (sounds _) with (sounds w) by crush_step.
    simpl. by rewrite app_nil_r.
  - unfold step. rewrite Hm. unfold dispatch, listing_step_spec.
    unfold inserted_spec, add_outcome. unfold_m. simpl.
    destruct pick as [r | e]; simpl; [| by rewrite app_nil_r].
    destruct (picked r); simpl.
    + destruct (chosen_file r) as [f |]; simpl.
      * destruct load as [[] | e]; simpl; [| by rewrite app_nil_r].
        by rewrite map_app.
      * destruct load; by rewrite app_nil_r.
    + destruct load; by rewrite app_nil_r.
  - replace (sounds _) with (sounds w) by crush_step.
    simpl. by rewrite app_nil_r.
  - replace (sounds (step w (Remove id)))
      with (filter (fun s => sound_id s ≠ id) (sounds w)) by crush_step.
    apply render_filter.
  - replace (sounds _) with (sounds w) by crush_step.
    simpl. by rewrite app_nil_r.
  - replace (sounds _) with (sounds w) by crush_step.
    simpl. by rewrite app_nil_r.
Qed.

Lemma run_render (evs : list Event) (w : World) :
  mounted w = true ->
  Unmount ∉ evs ->
  render_sounds (run evs w) = listing_spec evs (render_sounds w).
Proof.
  revert w. induction evs as [| ev evs IH]; intros w Hm Hno; simpl; [done |].
  apply not_elem_of_cons in Hno as [Hne Hno].
  unfold listing_spec. simpl.
  rewrite <- (step_render w ev) by done.
  apply IH; [| done]. by rewrite step_mounted.
Qed.

Lemma listing_spec_sublist (evs : list Event)
    (cards : list (string * option string)) :
  listing_spec evs cards `sublist_of` cards ++ insertions_spec evs.
Proof.
  revert cards. induction evs as [| ev evs IH]; intros cards.
  - unfold insertions_spec. simpl. by rewrite app_nil_r.
  - unfold listing_spec, insertions_spec. simpl.
    etrans; [apply IH |]. fold (insertions_spec evs).
    rewrite app_assoc. apply sublist_app; [| done].
    destruct ev; simpl; try done.
    rewrite app_nil_r. apply sublist_filter.
Qed.

(** C7.  After any sequence of events on the mounted component, the
    cards rendered are exactly the remaining assets in insertion order:
    each add that went through contributes its card after all earlier
    ones, each removal takes out the cards with the identifier removed,
    and nothing else adds, drops or reorders a card; in particular the
    cards shown are an order-preserving selection from the cards
    inserted. *)
Theorem sounds_keep_insertion_order (evs : list Event)
    (resp : PermissionStatus) :
  Unmount ∉ evs ->
  render_sounds (run evs (App_mounted resp)) = listing_spec evs []
  /\ render_sounds (run evs (App_mounted resp)) `sublist_of`
       insertions_spec evs
  /\ (forall w, mounted w = true ->
        render_sounds (run evs w) = listing_spec evs (render_sounds w)).
Proof.
  intros Hno.
  assert (He : render_sounds (run evs (App_mounted resp))
               = listing_spec evs []).
  { rewrite run_render; [| by destruct resp | done]. by destruct resp. }
  split_and!.
  - done.
  - rewrite He. apply (listing_spec_sublist evs []).
  - intros w Hm. by apply run_render.
Qed.

Lemma sounds_keep_insertion_order_witness :
  let evs := [PressAdd sample_pick (Normal tt) 1000; PressMic Granted;
              PressAdd sample_pick (Normal tt) 1001; Remove "1000";
              PressAdd sample_pick (Normal tt) 1002] in
  render_sounds (run evs (App_mounted Granted)) = listing_spec evs []
  /\ render_sounds (run evs (App_mounted Granted)) `sublist_of`
       insertions_spec evs
  /\ (forall w, mounted w = true ->
        render_sounds (run evs w) = listing_spec evs (render_sounds w)).
Proof.
  intros evs. apply (sounds_keep_insertion_order evs Granted).
  intros Hin. unfold evs in Hin.
  repeat (apply elem_of_cons in Hin as [Hin | Hin]; [discriminate |]).
  by apply elem_of_nil in Hin.
Defined.

(** The listing of that run, computed from the claim's words alone. *)
Lemma listing_spec_example :
  listing_spec [PressAdd sample_pick (Normal tt) 1000; PressMic Granted;
                PressAdd sample_pick (Normal tt) 1001; Remove "1000";
                PressAdd sample_pick (Normal tt) 1002] [] =
    [("1001", Some "horn.mp3"); ("1002", Some "horn.mp3")].
Proof. vm_compute. reflexivity. Qed.

(** ** Sound objects of listed sounds *)

(** An event never frees a heap cell. *)
Lemma step_heap_mono (w : World) (ev : Event) (h : nat) :
  is_Some (heap w !! h) -> is_Some (heap (step w ev) !! h).
Proof.
  intros Hh. destruct ev; crush_step;
    rewrite ?lookup_insert_is_Some', ?lookup_fmap, ?fmap_is_Some; eauto.
Qed.

Lemma reachable_listed_sounds_allocated (w : World) :
  reachable w -> listed_sounds_allocated w.
Proof.
  induction 1 as [resp | w ev Hr IH]; intros s Hs.
  - destruct resp; by apply elem_of_nil in Hs.
  - destruct (step_sounds w ev)
      as [[Hsub _] | (pick & load & now & s' & -> & _ & He & _ & Hal)].
    + apply step_heap_mono, IH. by eapply elem_of_sublist.
    + rewrite He in Hs. apply elem_of_app in Hs as [Hs | Hs].
      * by apply step_heap_mono, IH.
      * by apply list_elem_of_singleton in Hs as ->.
Qed.

(** C3 (as the code has it).  In every reachable state, [removeSound] on a
    listed identifier unloads the first sound carrying it at once,
    whatever its playback status, and drops every entry with that
    identifier from the list; no other sound object is touched. *)
Theorem removeSound_unloads_at_once (id : string) (w : World) (s : Sound) :
  reachable w ->
  List.find (fun s => bool_decide (sound_id s = id)) (sounds w) = Some s ->
  heap (exec (removeSound (sounds w) id) w) =
    <[soundObj s := unloaded_status]> (heap w)
  /\ heap (exec (removeSound (sounds w) id) w) !! soundObj s = Some unloaded_status
  /\ sounds (exec (removeSound (sounds w) id) w) =
       filter (fun s => sound_id s ≠ id) (sounds w)
  /\ (id ∉ ids (exec (removeSound (sounds w) id) w))
  /\ performed (removeSound (sounds w) id) w = [EUnloadAsync (soundObj s); ESetSounds].
Proof.
  intros Hr Hf.
  destruct (reachable_listed_sounds_allocated w Hr s) as [st Hst].
  { apply find_some in Hf as [Hin _]. by apply list_elem_of_In. }
  by eapply removeSound_unloads_allocated.
Qed.

Lemma removeSound_unloads_at_once_witness :
  heap (exec (removeSound (sounds horn_playing) "1000") horn_playing) =
    <[soundObj horn := unloaded_status]> (heap horn_playing)
  /\ heap (exec (removeSound (sounds horn_playing) "1000") horn_playing) !! soundObj horn
       = Some unloaded_status
  /\ sounds (exec (removeSound (sounds horn_playing) "1000") horn_playing) =
       filter (fun s => sound_id s ≠ "1000") (sounds horn_playing)
  /\ ("1000" ∉ ids (exec (removeSound (sounds horn_playing) "1000") horn_playing))
  /\ performed (removeSound (sounds horn_playing) "1000") horn_playing =
       [EUnloadAsync (soundObj horn); ESetSounds].
Proof.
  apply (removeSound_unloads_at_once "1000" horn_playing horn).
  - unfold horn_playing. apply reachable_run, reachable_mounted.
  - reflexivity.
Defined.

(** ** Identifiers *)





(** C8.  The identifiers are not always distinct, although the code
    needs them to be (the identifier is the key of the card and what
    [removeSound] finds and filters by): two add calls that read the same
    clock value leave two entries with the same identifier. *)
Lemma same_clock_reading_same_id :
  ids (run [PressAdd sample_pick (Normal tt) 1000;
            PressAdd sample_pick (Normal tt) 1000]
           (App_mounted Granted)) = ["1000"; "1000"]
  /\ ~ NoDup (ids (run [PressAdd sample_pick (Normal tt) 1000;
                        PressAdd sample_pick (Normal tt) 1000]
                       (App_mounted Granted))).
Proof.
  assert (E : ids (run [PressAdd sample_pick (Normal tt) 1000;
                         PressAdd sample_pick (Normal tt) 1000]
                        (App_mounted Granted)) = ["1000"; "1000"])
    by (vm_compute; reflexivity).
  rewrite E. split; [reflexivity |].
  intros H. apply NoDup_cons in H as [H _]. apply H.
  apply list_elem_of_here.
Qed.

(** ** The broadcasting flag and the recorder *)

(** The order of [toggleMic]: switching off stops the recorder and then
    clears the flag; switching on sets the flag only right after the
    recorder was started. *)
Lemma toggleMic_order (resp : PermissionStatus) (w : World) :
  (isMicOn w = true ->
   performed (toggleMic resp) w = [EStreamStop; ESetIsMicOn false])
  /\ (isMicOn w = false ->
      isMicOn (exec (toggleMic resp) w) = true ->
      performed (toggleMic resp) w = [EStreamStart; ESetIsMicOn true]
      \/ performed (toggleMic resp) w =
           [ERequestPermission; EStreamStart; ESetIsMicOn true]).
Proof.
  split.
  - intros Hon. unfold_m. rewrite Hon. simpl.
    by rewrite <- app_assoc, drop_app_length.
  - intros Hoff. unfold_m. rewrite Hoff. simpl.
    destruct (not_granted (permissionResponse w)); simpl.
    + destruct (not_granted (Some resp)); simpl.
      * intros H. congruence.
      * intros _. right. by rewrite <- !app_assoc, drop_app_length.
    + intros _. left. by rewrite <- app_assoc, drop_app_length.
Qed.

(** One event keeps the flag and the recorder in step on a mounted
    component. *)
Lemma step_flag_matches_recorder (w : World) (ev : Event) :
  (mounted w = true -> isMicOn w = recording w) ->
  mounted (step w ev) = true ->
  isMicOn (step w ev) = recording (step w ev).
Proof.
  intros Hinv.
  destruct ev as [resp | pick load now | i | id | chunk | dt |];
    unfold step, dispatch; unfold_m; simpl;
    repeat (case_match; simplify_eq/=; try done);
    intros; try congruence;
    first [by apply Hinv | rewrite Hinv in *; congruence
          | specialize (Hinv eq_refl); congruence].
Qed.

(** C9.  In every reachable state of the mounted component, [isMicOn]
    equals the recorder's running state, so the status line reads
    BROADCASTING exactly when the recorder runs and READY exactly when it
    does not; and [toggleMic] stops the recorder before it clears the
    flag, and sets the flag only after it has started the recorder. *)
Theorem flag_matches_recorder (w : World) :
  reachable w ->
  mounted w = true ->
  isMicOn w = recording w
  /\ (status_text w = "BROADCASTING" <-> recording w = true)
  /\ (status_text w = "READY" <-> recording w = false)
  /\ (forall resp,
        (isMicOn w = true ->
         performed (toggleMic resp) w = [EStreamStop; ESetIsMicOn false])
        /\ (isMicOn w = false ->
            isMicOn (exec (toggleMic resp) w) = true ->
            performed (toggleMic resp) w = [EStreamStart; ESetIsMicOn true]
            \/ performed (toggleMic resp) w =
                 [ERequestPermission; EStreamStart; ESetIsMicOn true])).
Proof.
  intros Hr Hm.
  assert (Hinv : isMicOn w = recording w).
  { revert Hm. induction Hr as [resp | w ev Hr IH].
    - by destruct resp.
    - by apply step_flag_matches_recorder. }
  split_and!.
  - done.
  - unfold status_text. rewrite <- Hinv. by destruct (isMicOn w).
  - unfold status_text. rewrite <- Hinv. by destruct (isMicOn w).
  - intros resp. apply toggleMic_order.
Qed.

Lemma flag_matches_recorder_witness :
  let w := step (App_mounted Denied) (PressMic Granted) in
  isMicOn w = recording w
  /\ (status_text w = "BROADCASTING" <-> recording w = true)
  /\ (status_text w = "READY" <-> recording w = false)
  /\ (forall resp,
        (isMicOn w = true ->
         performed (toggleMic resp) w = [EStreamStop; ESetIsMicOn false])
        /\ (isMicOn w = false ->
            isMicOn (exec (toggleMic resp) w) = true ->
            performed (toggleMic resp) w = [EStreamStart; ESetIsMicOn true]
            \/ performed (toggleMic resp) w =
                 [ERequestPermission; EStreamStart; ESetIsMicOn true])).
Proof.
  intros w.
  apply (flag_matches_recorder w).
  - apply reachable_step. apply reachable_mounted.
  - reflexivity.
Defined.

(** * Further properties of the handlers *)

Lemma not_granted_false (p : option PermissionStatus) :
  not_granted p = false <-> p = Some Granted.
Proof.
  unfold not_granted. rewrite negb_false_iff. apply bool_decide_eq_true.
Qed.

(** ** [toggleMic] *)

(** X1.  What one press on the microphone button does, in all cases.  It
    asks for the permission exactly when the microphone is off and the
    permission is not held; it raises the alert exactly when, on top of
    that, the answer is not 'granted', and then the flag and the recorder
    stay as they were; in every other case the flag is inverted and the
    recorder is put in the state the new flag names.  The sound list and
    the sound objects are never touched and the call never raises. *)
Theorem toggleMic_outcomes (resp : PermissionStatus) (w : World) :
  (ERequestPermission ∈ performed (toggleMic resp) w <->
     isMicOn w = false /\ permissionResponse w <> Some Granted)
  /\ (permission_alert ∈ performed (toggleMic resp) w <->
        isMicOn w = false /\ permissionResponse w <> Some Granted
        /\ resp <> Granted)
  /\ (permission_alert ∈ performed (toggleMic resp) w ->
        isMicOn (exec (toggleMic resp) w) = isMicOn w
        /\ recording (exec (toggleMic resp) w) = recording w)
  /\ (permission_alert ∉ performed (toggleMic resp) w ->
        isMicOn (exec (toggleMic resp) w) = negb (isMicOn w)
        /\ recording (exec (toggleMic resp) w) = negb (isMicOn w))
  /\ sounds (exec (toggleMic resp) w) = sounds w
  /\ heap (exec (toggleMic resp) w) = heap w
  /\ completion (toggleMic resp) w = Normal tt.
Proof.
  unfold permission_alert. unfold_m.
  destruct (isMicOn w) eqn:Hon; simpl.
  - perf. rewrite !elem_of_cons, !elem_of_nil. naive_solver.
  - destruct (not_granted (permissionResponse w)) eqn:Hp; simpl.
    + assert (permissionResponse w <> Some Granted)
        by (intros Hg; apply not_granted_false in Hg; congruence).
      destruct resp; simpl; perf;
        rewrite !elem_of_cons, !elem_of_nil; naive_solver.
    + apply not_granted_false in Hp.
      perf. rewrite !elem_of_cons, !elem_of_nil. naive_solver.
Qed.

(** X2.  With the permission held, two presses in a row bring the flag
    back to what it was, leave the recorder in the state that flag names,
    ask nothing of the user and touch neither the list nor the sound
    objects. *)
Theorem toggleMic_twice (r1 r2 : PermissionStatus) (w : World) :
  permissionResponse w = Some Granted ->
  isMicOn (exec (toggleMic r2) (exec (toggleMic r1) w)) = isMicOn w
  /\ recording (exec (toggleMic r2) (exec (toggleMic r1) w)) = isMicOn w
  /\ permissionResponse (exec (toggleMic r2) (exec (toggleMic r1) w)) =
       Some Granted
  /\ sounds (exec (toggleMic r2) (exec (toggleMic r1) w)) = sounds w
  /\ heap (exec (toggleMic r2) (exec (toggleMic r1) w)) = heap w
  /\ drop (length (trace w))
          (trace (exec (toggleMic r2) (exec (toggleMic r1) w))) =
       if isMicOn w
       then [EStreamStop; ESetIsMicOn false; EStreamStart; ESetIsMicOn true]
       else [EStreamStart; ESetIsMicOn true; EStreamStop; ESetIsMicOn false].
Proof.
  intros Hg. unfold_m.
  destruct (isMicOn w) eqn:Hon; simpl; rewrite ?Hg; simpl; perf; done.
Qed.

Lemma toggleMic_twice_witness :
  let w := App_mounted Granted in
  isMicOn (exec (toggleMic Denied) (exec (toggleMic Denied) w)) = isMicOn w
  /\ recording (exec (toggleMic Denied) (exec (toggleMic Denied) w)) =
       isMicOn w
  /\ permissionResponse (exec (toggleMic Denied) (exec (toggleMic Denied) w))
       = Some Granted
  /\ sounds (exec (toggleMic Denied) (exec (toggleMic Denied) w)) = sounds w
  /\ heap (exec (toggleMic Denied) (exec (toggleMic Denied) w)) = heap w
  /\ drop (length (trace w))
          (trace (exec (toggleMic Denied) (exec (toggleMic Denied) w))) =
       if isMicOn w
       then [EStreamStop; ESetIsMicOn false; EStreamStart; ESetIsMicOn true]
       else [EStreamStart; ESetIsMicOn true; EStreamStop; ESetIsMicOn false].
Proof.
  intros w. apply (toggleMic_twice Denied Denied w). reflexivity.
Defined.

(** ** The soundboard and the broadcast do not interfere *)

(** X3.  [addSound], [playSound] and [removeSound], whatever they are
    given and however they end, leave the broadcasting flag, the recorder
    and the stored permission alone, never start or stop the recorder and
    never raise to their caller. *)
Theorem soundboard_leaves_broadcast_alone (w : World) :
  (forall pick load now,
     isMicOn (exec (addSound pick load now) w) = isMicOn w
     /\ recording (exec (addSound pick load now) w) = recording w
     /\ permissionResponse (exec (addSound pick load now) w) =
          permissionResponse w
     /\ completion (addSound pick load now) w = Normal tt)
  /\ (forall item,
        isMicOn (exec (playSound item) w) = isMicOn w
        /\ recording (exec (playSound item) w) = recording w
        /\ permissionResponse (exec (playSound item) w) =
             permissionResponse w
        /\ completion (playSound item) w = Normal tt)
  /\ (forall rendered id,
        isMicOn (exec (removeSound rendered id) w) = isMicOn w
        /\ recording (exec (removeSound rendered id) w) = recording w
        /\ permissionResponse (exec (removeSound rendered id) w) =
             permissionResponse w
        /\ completion (removeSound rendered id) w = Normal JsUndefined).
Proof.
  split_and!.
  - intros pick load now. unfold_m. simpl.
    repeat (case_match; simplify_eq/=; try done).
  - intros item. unfold_m. simpl.
    repeat (case_match; simplify_eq/=; try done).
  - intros rendered id. unfold_m. simpl.
    repeat (case_match; simplify_eq/=; try done).
Qed.

(** ** Sound objects along a run *)

Lemma fresh_heap_None (m : gmap nat PlaybackStatus) :
  m !! fresh (dom m) = None.
Proof. apply not_elem_of_dom, is_fresh. Qed.

Lemma advance_isLoaded (dt : nat) (st : PlaybackStatus) :
  isLoaded (advance dt st) = isLoaded st.
Proof. unfold advance. by destruct st as [[] [] ?]. Qed.

(** Apart from [removeSound], no event unloads a sound object. *)
Lemma step_loaded_mono (w : World) (ev : Event) (h : nat)
    (st : PlaybackStatus) :
  (forall id, ev <> Remove id) ->
  heap w !! h = Some st ->
  isLoaded st = true ->
  exists st', heap (step w ev) !! h = Some st' /\ isLoaded st' = true.
Proof.
  intros Hne Hh Hl.
  destruct ev as [resp | pick load now | i | id | chunk | dt |];
    try (by destruct (Hne id));
    crush_step; heap_cases; eauto.
  rewrite Hh. simpl. eexists. split; [done |]. by rewrite advance_isLoaded.
Qed.

(** No event loads an unloaded sound object again. *)
Lemma step_unloaded_stays (w : World) (ev : Event) (h : nat)
    (st : PlaybackStatus) :
  heap w !! h = Some st ->
  isLoaded st = false ->
  exists st', heap (step w ev) !! h = Some st' /\ isLoaded st' = false.
Proof.
  intros Hh Hl.
  destruct ev as [resp | pick load now | i | id | chunk | dt |];
    crush_step; heap_cases; eauto; try congruence.
  rewrite Hh. simpl. eexists. split; [done |]. by rewrite advance_isLoaded.
Qed.

(** What an add call does to the list and the heap together. *)
Lemma step_add_shape (w : World) (pick : Completion PickResult)
    (load : Completion unit) (now : Z) :
  (sounds (step w (PressAdd pick load now)) = sounds w
   /\ heap (step w (PressAdd pick load now)) = heap w)
  \/ (exists s,
        sounds (step w (PressAdd pick load now)) = sounds w ++ [s]
        /\ soundObj s = fresh (dom (heap w))
        /\ heap (step w (PressAdd pick load now)) =
             <[fresh (dom (heap w)) := fresh_status]> (heap w)).
Proof.
  unfold step. destruct (mounted w); [| by left].
  unfold dispatch. unfold_m. simpl.
  destruct pick as [r | e]; simpl; [| by left].
  destruct (picked r); simpl; [| by left].
  destruct (chosen_file r) as [f |]; simpl; [| by left].
  destruct load as [[] | e]; simpl; [| by left].
  right. by eexists.
Qed.

(** What [removeSound] does to the list and the heap together, whichever
    render its handler comes from. *)
Lemma removeSound_shape (l : list Sound) (id : string) (w : World) :
  sounds (exec (removeSound l id) w) =
    filter (fun s => sound_id s ≠ id) (sounds w)
  /\ (heap (exec (removeSound l id) w) = heap w
      \/ exists s,
           List.find (fun s => bool_decide (sound_id s = id)) l = Some s
           /\ heap (exec (removeSound l id) w) =
                <[soundObj s := unloaded_status]> (heap w)).
Proof.
  unfold_m. simpl.
  destruct (List.find _ l) as [s |] eqn:Hf; simpl.
  - destruct (heap w !! soundObj s); simpl; (split; [done |]).
    + right. by exists s.
    + by left.
  - split; [done | by left].
Qed.

Lemma find_id_Some (id : string) (l : list Sound) (s : Sound) :
  List.find (fun s => bool_decide (sound_id s = id)) l = Some s ->
  s ∈ l /\ sound_id s = id.
Proof.
  intros Hf. apply find_some in Hf as [Hin Hid].
  split; [by apply list_elem_of_In | by apply bool_decide_eq_true in Hid].
Qed.

Lemma NoDup_map_inj {A B} (f : A -> B) (l : list A) (x y : A) :
  NoDup (map f l) -> x ∈ l -> y ∈ l -> f x = f y -> x = y.
Proof.
  induction l as [| a l IH]; simpl; intros Hnd Hx Hy Hxy.
  - by apply elem_of_nil in Hx.
  - apply NoDup_cons in Hnd as [Ha Hnd].
    apply elem_of_cons in Hx as [-> | Hx];
      apply elem_of_cons in Hy as [-> | Hy]; try done.
    + destruct Ha. rewrite Hxy. apply list_elem_of_fmap. eauto.
    + destruct Ha. rewrite <- Hxy. apply list_elem_of_fmap. eauto.
    + by apply IH.
Qed.

Lemma step_board_ok (w : World) (ev : Event) :
  board_ok w -> board_ok (step w ev).
Proof.
  intros [Hnd Hld].
  assert (Hkeep : sounds (step w ev) `sublist_of` sounds w ->
                  (forall id, ev <> Remove id) -> board_ok (step w ev)).
  { intros Hsub Hne. split.
    - eapply sublist_NoDup; [exact Hnd |]. by apply (fmap_sublist _).
    - intros s Hs. destruct (Hld s) as (st & Hst & Hl).
      { by eapply elem_of_sublist. }
      by eapply step_loaded_mono. }
  destruct ev as [resp | pick load now | i | id | chunk | dt |].
  - apply Hkeep; [| done]. by replace (sounds _) with (sounds w) by crush_step.
  - destruct (step_add_shape w pick load now)
      as [[Hs Hh] | (s & Hs & Hobj & Hh)].
    + apply Hkeep; [| done]. by rewrite Hs.
    + split.
      * rewrite Hs, map_app. simpl. apply NoDup_app. split_and!.
        -- done.
        -- intros k Hk Hk'. apply list_elem_of_singleton in Hk'. subst k.
           apply list_elem_of_fmap in Hk as (s' & Hobj' & Hs').
           destruct (Hld s' Hs') as (st & Hst & _).
           rewrite <- Hobj', Hobj, fresh_heap_None in Hst. discriminate.
        -- apply NoDup_singleton.
      * intros s' Hin. rewrite Hs in Hin. rewrite Hh.
        apply elem_of_app in Hin as [Hin | Hin].
        -- destruct (Hld s' Hin) as (st & Hst & Hl).
           exists st. split; [| done]. rewrite lookup_insert_ne; [done |].
           intros Heq. rewrite <- Heq, fresh_heap_None in Hst. discriminate.
        -- apply list_elem_of_singleton in Hin. subst s'.
           rewrite Hobj, lookup_insert_eq. by exists fresh_status.
  - apply Hkeep; [| done]. by replace (sounds _) with (sounds w) by crush_step.
  - unfold step. destruct (mounted w); [| by split].
    assert (exec (dispatch (Remove id)) w = exec (removeSound (sounds w) id) w) as ->
      by (unfold dispatch; unfold_m; simpl;
          repeat (case_match; simplify_eq/=; try done)).
    destruct (removeSound_shape (sounds w) id w) as [Hs Hh]. split.
    + rewrite Hs. eapply sublist_NoDup; [exact Hnd |].
      apply (fmap_sublist _), sublist_filter.
    + intros s' Hin. rewrite Hs in Hin.
      apply list_elem_of_filter in Hin as [Hid Hin].
      destruct (Hld s' Hin) as (st & Hst & Hl). exists st. split; [| done].
      destruct Hh as [-> | (s & Hf & ->)]; [done |].
      apply find_id_Some in Hf as [Hsin Hsid].
      rewrite lookup_insert_ne; [done |].
      intros Heq. apply Hid. rewrite <- Hsid. f_equal. symmetry.
      by eapply (NoDup_map_inj soundObj).
  - apply Hkeep; [| done]. by replace (sounds _) with (sounds w) by crush_step.
  - apply Hkeep; [| done]. by replace (sounds _) with (sounds w) by crush_step.
  - apply Hkeep; [| done]. by replace (sounds _) with (sounds w) by crush_step.
Qed.

Lemma run_board_ok (evs : list Event) (w : World) :
  board_ok w -> board_ok (run evs w).
Proof.
  revert w. induction evs as [| ev evs IH]; intros w Hok; simpl; [done |].
  by apply IH, step_board_ok.
Qed.

Lemma board_ok_mounted (resp : PermissionStatus) : board_ok (App_mounted resp).
Proof.
  split.
  - destruct resp; apply NoDup_nil_2.
  - intros s Hs. destruct resp; by apply elem_of_nil in Hs.
Qed.

Lemma reachable_cards_loaded (w : World) :
  reachable w -> board_ok w.
Proof.
  induction 1 as [resp | w ev Hr IH];
    [apply board_ok_mounted | by apply step_board_ok].
Qed.

(** X4.  In every reachable state each card has a sound object of its
    own, shared with no other card, and that object is loaded; and the
    same holds after any further sequence of events. *)
Theorem reachable_board_ok (w : World) :
  reachable w ->
  board_ok w /\ forall evs, board_ok (run evs w).
Proof.
  intros Hr.
  assert (Hok : board_ok w).
  { induction Hr as [resp | w ev Hr IH].
    - apply board_ok_mounted.
    - by apply step_board_ok. }
  split; [done |]. intros evs. by apply run_board_ok.
Qed.

Lemma reachable_board_ok_witness :
  board_ok horn_playing /\ forall evs, board_ok (run evs horn_playing).
Proof.
  apply (reachable_board_ok horn_playing).
  unfold horn_playing. apply reachable_run, reachable_mounted.
Defined.

(** ** Pressing play *)

(** X5.  In a reachable state of the mounted component, pressing the play
    area of a card never fails: it performs exactly [stopAsync],
    [setPositionAsync(0)] and [playAsync] on that card's sound object,
    which ends up playing from the start; nothing is logged, the list is
    unchanged and the sound object of every other card is as it was. *)
Theorem pressPlay_restarts_only_that_card (w : World) (i : nat)
    (item : Sound) :
  reachable w ->
  mounted w = true ->
  sounds w !! i = Some item ->
  heap (step w (PressPlay i)) = <[soundObj item := restarted]> (heap w)
  /\ trace (step w (PressPlay i)) =
       trace w ++ [EStopAsync (soundObj item);
                   ESetPositionAsync (soundObj item) 0;
                   EPlayAsync (soundObj item)]
  /\ sounds (step w (PressPlay i)) = sounds w
  /\ (forall s, s ∈ sounds w -> s <> item ->
        heap (step w (PressPlay i)) !! soundObj s = heap w !! soundObj s).
Proof.
  intros Hr Hm Hi. destruct (reachable_cards_loaded w Hr) as [Hnd Hld].
  assert (Hin : item ∈ sounds w) by by eapply list_elem_of_lookup_2.
  destruct (Hld item Hin) as (st & Hst & Hl).
  assert (He : step w (PressPlay i) = exec (playSound item) w).
  { unfold step. rewrite Hm. unfold dispatch. unfold_m. simpl.
    by rewrite Hi. }
  rewrite He. clear He.
  assert (Hh : heap (exec (playSound item) w)
               = <[soundObj item := restarted]> (heap w)).
  { unfold_m. simpl. rewrite Hst, Hl. simpl.
    rewrite lookup_insert_eq. simpl. rewrite lookup_insert_eq. simpl.
    by rewrite !insert_insert_eq. }
  split_and!.
  - done.
  - unfold_m. simpl. rewrite Hst, Hl. simpl.
    rewrite lookup_insert_eq. simpl. rewrite lookup_insert_eq. simpl.
    by rewrite <- !app_assoc.
  - unfold_m. simpl. rewrite Hst, Hl. simpl.
    rewrite lookup_insert_eq. simpl. by rewrite lookup_insert_eq.
  - intros s Hs Hne. rewrite Hh. apply lookup_insert_ne.
    intros Heq. apply Hne. symmetry.
    by eapply (NoDup_map_inj soundObj).
Qed.

Lemma pressPlay_restarts_only_that_card_witness :
  heap (step horn_playing (PressPlay 0)) =
    <[soundObj horn := restarted]> (heap horn_playing)
  /\ trace (step horn_playing (PressPlay 0)) =
       trace horn_playing ++ [EStopAsync (soundObj horn);
                              ESetPositionAsync (soundObj horn) 0;
                              EPlayAsync (soundObj horn)]
  /\ sounds (step horn_playing (PressPlay 0)) = sounds horn_playing
  /\ (forall s, s ∈ sounds horn_playing -> s <> horn ->
        heap (step horn_playing (PressPlay 0)) !! soundObj s =
          heap horn_playing !! soundObj s).
Proof.
  apply (pressPlay_restarts_only_that_card horn_playing 0 horn).
  - unfold horn_playing. apply reachable_run, reachable_mounted.
  - reflexivity.
  - reflexivity.
Defined.

(** X6.  [playSound] on a sound object that is not loaded gives up at the
    first call: [stopAsync] rejects, the error is caught and logged as
    "Playback failed", [setPositionAsync] and [playAsync] are never
    called, no state changes and the caller sees a normal return. *)
Theorem playSound_not_loaded (item : Sound) (w : World) :
  (forall st, heap w !! soundObj item = Some st -> isLoaded st = false) ->
  exec (playSound item) w =
    log (EConsoleLog "Playback failed" not_loaded)
        (log (EStopAsync (soundObj item)) w)
  /\ completion (playSound item) w = Normal tt
  /\ performed (playSound item) w =
       [EStopAsync (soundObj item); EConsoleLog "Playback failed" not_loaded].
Proof.
  intros Hu. unfold_m. simpl.
  destruct (heap w !! soundObj item) as [st |] eqn:Hst; simpl.
  - rewrite (Hu st eq_refl). simpl. perf. done.
  - perf. done.
Qed.

Lemma playSound_not_loaded_witness :
  let w := exec (removeSound (sounds horn_playing) "1000") horn_playing in
  exec (playSound horn) w =
    log (EConsoleLog "Playback failed" not_loaded)
        (log (EStopAsync (soundObj horn)) w)
  /\ completion (playSound horn) w = Normal tt
  /\ performed (playSound horn) w =
       [EStopAsync (soundObj horn); EConsoleLog "Playback failed" not_loaded].
Proof.
  intros w. apply (playSound_not_loaded horn w).
  intros st Hst. vm_compute in Hst. by injection Hst as <-.
Defined.

(** ** Removing, once more *)

(** X7.  In a reachable state, removing one identifier leaves every card
    with another identifier where it was relative to the others, and its
    sound object exactly as it was: still loaded, still playing if it
    played. *)
Theorem removeSound_keeps_other_cards (id : string) (w : World)
    (s' : Sound) :
  reachable w ->
  s' ∈ sounds w ->
  sound_id s' <> id ->
  s' ∈ sounds (exec (removeSound (sounds w) id) w)
  /\ heap (exec (removeSound (sounds w) id) w) !! soundObj s' = heap w !! soundObj s'
  /\ sounds (exec (removeSound (sounds w) id) w) `sublist_of` sounds w.
Proof.
  intros Hr Hin Hid. destruct (reachable_cards_loaded w Hr) as [Hnd _].
  destruct (removeSound_shape (sounds w) id w) as [Hs Hh]. rewrite Hs. split_and!.
  - by apply list_elem_of_filter.
  - destruct Hh as [-> | (s & Hf & ->)]; [done |].
    apply find_id_Some in Hf as [Hsin Hsid].
    apply lookup_insert_ne. intros Heq. apply Hid. rewrite <- Hsid.
    f_equal. symmetry. by eapply (NoDup_map_inj soundObj).
  - apply sublist_filter.
Qed.

Lemma removeSound_keeps_other_cards_witness :
  horn ∈ sounds horn_playing
  /\ horn ∈ sounds (exec (removeSound (sounds horn_playing) "2000") horn_playing)
  /\ heap (exec (removeSound (sounds horn_playing) "2000") horn_playing) !! soundObj horn =
       heap horn_playing !! soundObj horn
  /\ sounds (exec (removeSound (sounds horn_playing) "2000") horn_playing) `sublist_of`
       sounds horn_playing.
Proof.
  assert (Hin : horn ∈ sounds horn_playing) by apply list_elem_of_here.
  split; [exact Hin |].
  apply (removeSound_keeps_other_cards "2000" horn_playing horn).
  - unfold horn_playing. apply reachable_run, reachable_mounted.
  - exact Hin.
  - discriminate.
Defined.

(** X8.  When two cards carry the same identifier, removing it drops both
    cards but unloads only the sound object of the first: in a reachable
    state the later card disappears from the list while its sound object
    stays on the heap, loaded, with the status it had. *)
Theorem removeSound_duplicate_id_leaves_object (id : string) (w : World)
    (s s2 : Sound) :
  reachable w ->
  List.find (fun s => bool_decide (sound_id s = id)) (sounds w) = Some s ->
  s2 ∈ sounds w ->
  sound_id s2 = id ->
  s2 <> s ->
  (s2 ∉ sounds (exec (removeSound (sounds w) id) w))
  /\ heap (exec (removeSound (sounds w) id) w) !! soundObj s2 = heap w !! soundObj s2
  /\ exists st, heap (exec (removeSound (sounds w) id) w) !! soundObj s2 = Some st
                /\ isLoaded st = true.
Proof.
  intros Hr Hf Hin Hid Hne. destruct (reachable_cards_loaded w Hr) as [Hnd Hld].
  destruct (removeSound_shape (sounds w) id w) as [Hs Hh].
  assert (Hsame : heap (exec (removeSound (sounds w) id) w) !! soundObj s2
                  = heap w !! soundObj s2).
  { destruct Hh as [-> | (s0 & Hf0 & ->)]; [done |].
    rewrite Hf in Hf0. injection Hf0 as <-.
    apply find_id_Some in Hf as [Hsin _].
    apply lookup_insert_ne. intros Heq. apply Hne. symmetry.
    by eapply (NoDup_map_inj soundObj). }
  split_and!.
  - rewrite Hs. intros Hin'. by apply list_elem_of_filter in Hin' as [? _].
  - done.
  - rewrite Hsame. by apply Hld.
Qed.

Lemma removeSound_duplicate_id_leaves_object_witness :
  (second_horn ∉ sounds (exec (removeSound (sounds two_horns) "1000") two_horns))
  /\ heap (exec (removeSound (sounds two_horns) "1000") two_horns) !! soundObj second_horn =
       heap two_horns !! soundObj second_horn
  /\ exists st,
       heap (exec (removeSound (sounds two_horns) "1000") two_horns) !! soundObj second_horn
         = Some st
       /\ isLoaded st = true.
Proof.
  apply (removeSound_duplicate_id_leaves_object "1000" two_horns horn
           second_horn).
  - unfold two_horns. apply reachable_run, reachable_mounted.
  - vm_compute. reflexivity.
  - assert (E : sounds two_horns = [horn; second_horn])
      by (vm_compute; reflexivity).
    rewrite E. apply list_elem_of_further, list_elem_of_here.
  - reflexivity.
  - discriminate.
Defined.

(** X9.  The delete action of one rendered card, pressed twice before
    the list is rendered again, runs the same handler twice: the second
    run performs what the first performed, asking the same sound object
    to unload once more, and changes neither the list nor any sound
    object; the handler of the next render, given the same identifier,
    finds nothing and only calls the list setter. *)
Theorem removeSound_twice (l : list Sound) (id : string) (w : World) :
  sounds (exec (removeSound l id) (exec (removeSound l id) w)) =
    sounds (exec (removeSound l id) w)
  /\ heap (exec (removeSound l id) (exec (removeSound l id) w)) =
       heap (exec (removeSound l id) w)
  /\ performed (removeSound l id) (exec (removeSound l id) w) =
       performed (removeSound l id) w
  /\ performed (removeSound l id) w =
       match List.find (fun s => bool_decide (sound_id s = id)) l with
       | Some s => [EUnloadAsync (soundObj s); ESetSounds]
       | None => [ESetSounds]
       end
  /\ performed (removeSound (sounds (exec (removeSound l id) w)) id)
                (exec (removeSound l id) w) = [ESetSounds].
Proof.
  assert (E1 : performed (removeSound l id) w =
               match List.find (fun s => bool_decide (sound_id s = id)) l with
               | Some s => [EUnloadAsync (soundObj s); ESetSounds]
               | None => [ESetSounds]
               end).
  { apply performed_app. unfold_m. simpl.
    destruct (List.find _ l) as [s |]; simpl; [| done].
    destruct (heap w !! soundObj s); simpl; by rewrite <- !app_assoc. }
  assert (E2 : performed (removeSound l id) (exec (removeSound l id) w) =
               match List.find (fun s => bool_decide (sound_id s = id)) l with
               | Some s => [EUnloadAsync (soundObj s); ESetSounds]
               | None => [ESetSounds]
               end).
  { apply performed_app. unfold_m. simpl.
    destruct (List.find _ l) as [s |]; simpl; [| done].
    destruct (heap w !! soundObj s) eqn:Hh; simpl.
    - rewrite lookup_insert_eq. simpl. by rewrite <- !app_assoc.
    - rewrite Hh. simpl. by rewrite <- !app_assoc. }
  split_and!; [| | by rewrite E1, E2 | exact E1 |]; clear E1 E2.
  - unfold_m. simpl.
    destruct (List.find _ l) as [s |]; simpl;
      [| apply filter_absent, filter_removes].
    destruct (heap w !! soundObj s) eqn:Hh; simpl.
    + rewrite lookup_insert_eq. simpl. apply filter_absent, filter_removes.
    + rewrite Hh. simpl. apply filter_absent, filter_removes.
  - unfold_m. simpl.
    destruct (List.find _ l) as [s |]; simpl; [| done].
    destruct (heap w !! soundObj s) eqn:Hh; simpl.
    + rewrite lookup_insert_eq. simpl. apply insert_insert_eq.
    + rewrite Hh. simpl. done.
  - assert (Hn : id ∉ map sound_id (sounds (exec (removeSound l id) w))).
    { destruct (removeSound_shape l id w) as [-> _]. apply filter_removes. }
    pose proof (find_absent id _ Hn) as Hf.
    set (w1 := exec (removeSound l id) w) in *. clearbody w1.
    unfold_m. simpl. rewrite Hf. simpl. by perf.
Qed.

(** ** Adding, once more *)

Lemma find_id_last (id : string) (l : list Sound) (s : Sound) :
  id ∉ map sound_id l ->
  sound_id s = id ->
  List.find (fun s => bool_decide (sound_id s = id)) (l ++ [s]) = Some s.
Proof.
  intros Hn Hs. induction l as [| a l IH]; simpl.
  - by rewrite bool_decide_eq_true_2.
  - simpl in Hn. apply not_elem_of_cons in Hn as [Hne Hn].
    rewrite bool_decide_eq_false_2 by done. by apply IH.
Qed.

(** X10.  A successful add followed by the removal of the identifier it
    was given brings the list back to what it was, provided no card
    already carried that identifier; the sound object created for it
    stays behind, unloaded, and no other sound object is touched. *)
Theorem add_then_remove (r : PickResult) (f : FileInfo) (now : Z)
    (w : World) :
  picked r = true ->
  chosen_file r = Some f ->
  Number_toString now ∉ ids w ->
  let w1 := exec (addSound (Normal r) (Normal tt) now) w in
  let w2 := exec (removeSound (sounds w1) (Number_toString now)) w1 in
  sounds w2 = sounds w
  /\ heap w2 = <[fresh (dom (heap w)) := unloaded_status]> (heap w)
  /\ (forall h, is_Some (heap w !! h) -> heap w2 !! h = heap w !! h).
Proof.
  intros Hp Hf Hn. cbv zeta. unfold ids in Hn.
  destruct (addSound_appends r f now w Hp Hf) as (Hs & Hh & Hfresh).
  set (w1 := exec (addSound (Normal r) (Normal tt) now) w) in *.
  set (n := {| sound_id := Number_toString now; sound_name := file_name f;
               sound_uri := file_uri f;
               soundObj := fresh (dom (heap w)) |}) in *.
  assert (Hfind : List.find
            (fun s => bool_decide (sound_id s = Number_toString now))
            (sounds w1) = Some n).
  { rewrite Hs. by apply find_id_last. }
  assert (Hheap : heap (exec (removeSound (sounds w1) (Number_toString now))
                             w1) =
                  <[fresh (dom (heap w)) := unloaded_status]> (heap w)).
  { destruct (removeSound_shape (sounds w1) (Number_toString now) w1)
      as [_ [Hsame | (s & Hf' & Hu)]].
    - exfalso. revert Hsame. clearbody w1. unfold_m. simpl.
      rewrite Hfind. simpl. rewrite Hh, lookup_insert_eq. simpl.
      intros Heq. apply (f_equal (fun m => m !! fresh (dom (heap w)))) in Heq.
      rewrite !lookup_insert_eq in Heq. discriminate.
    - rewrite Hfind in Hf'. injection Hf' as <-.
      rewrite Hu, Hh. simpl. apply insert_insert_eq. }
  split_and!.
  - destruct (removeSound_shape (sounds w1) (Number_toString now) w1)
      as [-> _].
    rewrite Hs, filter_app, (filter_absent _ _ Hn).
    rewrite filter_cons_False by (intros Hne; by apply Hne).
    by rewrite filter_nil, app_nil_r.
  - done.
  - intros h [st Hst]. rewrite Hheap. apply lookup_insert_ne.
    intros Heq. rewrite <- Heq, Hfresh in Hst. discriminate.
Qed.

Lemma add_then_remove_witness :
  let r := {| pick_type := None; pick_canceled := Some false;
              pick_assets := Some [sample_file];
              pick_uri := None; pick_name := None |} in
  let w := horn_playing in
  let w1 := exec (addSound (Normal r) (Normal tt) 2000) w in
  let w2 := exec (removeSound (sounds w1) (Number_toString 2000)) w1 in
  sounds w2 = sounds w
  /\ heap w2 = <[fresh (dom (heap w)) := unloaded_status]> (heap w)
  /\ (forall h, is_Some (heap w !! h) -> heap w2 !! h = heap w !! h).
Proof.
  intros r w. apply (add_then_remove r sample_file 2000 w).
  - reflexivity.
  - reflexivity.
  - assert (E : ids w = ["1000"]) by (vm_compute; reflexivity).
    rewrite E. intros H. apply list_elem_of_singleton in H.
    vm_compute in H. discriminate.
Defined.

Lemma picked_spec (r : PickResult) :
  picked r = true <->
  pick_type r = Some "success" \/ pick_canceled r <> Some true.
Proof.
  unfold picked, truthy. rewrite orb_true_iff, bool_decide_eq_true.
  destruct (pick_canceled r) as [[] |]; simpl; naive_solver.
Qed.

(** X11.  [addSound] calls the loader exactly when the picker's result
    has [type] 'success' or a [canceled] that is not true (a missing
    [canceled] counts as not cancelled) and there is a file to read: the
    first entry of [assets] when [assets] is present, the result object
    itself otherwise.  The loader is then given that file's [uri]. *)
Theorem addSound_reaches_loader (r : PickResult) (load : Completion unit)
    (now : Z) (w : World) (u : option string) :
  ECreateSound u ∈ performed (addSound (Normal r) load now) w <->
  (pick_type r = Some "success" \/ pick_canceled r <> Some true)
  /\ exists f, chosen_file r = Some f /\ u = file_uri f.
Proof.
  rewrite <- picked_spec. unfold_m. simpl.
  destruct (picked r); simpl.
  - destruct (chosen_file r) as [f |]; simpl.
    + destruct load as [[] | e]; simpl; perf;
        rewrite !elem_of_cons, !elem_of_nil; naive_solver.
    + perf. rewrite !elem_of_cons, !elem_of_nil. naive_solver.
  - perf. rewrite !elem_of_cons, !elem_of_nil. naive_solver.
Qed.

(** X12.  When the result counts as picked but [assets] is an empty
    array, there is no first entry: reading its [uri] raises a TypeError,
    which is caught and logged; the loader is never called and no state
    changes. *)
Theorem addSound_empty_assets (r : PickResult) (load : Completion unit)
    (now : Z) (w : World) :
  picked r = true ->
  pick_assets r = Some [] ->
  exec (addSound (Normal r) load now) w =
    log (EConsoleLog "Error picking file:"
           (TypeError "Cannot read properties of undefined (reading 'uri')"))
        (log EGetDocument w)
  /\ completion (addSound (Normal r) load now) w = Normal tt.
Proof.
  intros Hp Ha. unfold_m. simpl. rewrite Hp. unfold chosen_file.
  by rewrite Ha.
Qed.

Lemma addSound_empty_assets_witness :
  let r := {| pick_type := Some "success"; pick_canceled := Some false;
              pick_assets := Some []; pick_uri := None;
              pick_name := None |} in
  let w := App_mounted Granted in
  exec (addSound (Normal r) (Normal tt) 5) w =
    log (EConsoleLog "Error picking file:"
           (TypeError "Cannot read properties of undefined (reading 'uri')"))
        (log EGetDocument w)
  /\ completion (addSound (Normal r) (Normal tt) 5) w = Normal tt.
Proof.
  intros r w. apply (addSound_empty_assets r (Normal tt) 5 w); reflexivity.
Defined.

(** X13.  Of several picked files only the first is used: whatever
    follows the first entry of [assets], and whatever [uri] and [name] the
    result object itself carries, [addSound] behaves as if that first
    entry were the only one. *)
Theorem addSound_uses_first_asset_only (r : PickResult) (f : FileInfo)
    (rest : list FileInfo) (load : Completion unit) (now : Z) (w : World) :
  pick_assets r = Some (f :: rest) ->
  addSound (Normal r) load now w =
    addSound (Normal {| pick_type := pick_type r;
                        pick_canceled := pick_canceled r;
                        pick_assets := Some [f];
                        pick_uri := None; pick_name := None |})
             load now w.
Proof.
  intros Ha. unfold_m. simpl. unfold picked, chosen_file. simpl.
  by rewrite Ha.
Qed.

Lemma addSound_uses_first_asset_only_witness :
  let r := {| pick_type := None; pick_canceled := Some false;
              pick_assets := Some [sample_file; sample_file];
              pick_uri := Some "ignored"; pick_name := None |} in
  addSound (Normal r) (Normal tt) 9 (App_mounted Granted) =
    addSound (Normal {| pick_type := pick_type r;
                        pick_canceled := pick_canceled r;
                        pick_assets := Some [sample_file];
                        pick_uri := None; pick_name := None |})
             (Normal tt) 9 (App_mounted Granted).
Proof.
  intros r.
  apply (addSound_uses_first_asset_only r sample_file [sample_file]
           (Normal tt) 9 (App_mounted Granted)).
  reflexivity.
Defined.

(** X14.  A successful add performs the picker call, the loader call, the
    clock reading and the list update, in that order; the new sound
    object is one that did not exist, loaded and not playing, so no voice
    is started or stopped; and the grid shows the old cards followed by
    the new one. *)
Theorem addSound_success (r : PickResult) (f : FileInfo) (now : Z)
    (w : World) :
  picked r = true ->
  chosen_file r = Some f ->
  performed (addSound (Normal r) (Normal tt) now) w =
    [EGetDocument; ECreateSound (file_uri f); EDateNow; ESetSounds]
  /\ heap (exec (addSound (Normal r) (Normal tt) now) w)
       !! fresh (dom (heap w)) = Some fresh_status
  /\ heap w !! fresh (dom (heap w)) = None
  /\ voices (exec (addSound (Normal r) (Normal tt) now) w) = voices w
  /\ render_grid (exec (addSound (Normal r) (Normal tt) now) w) =
       Cards (render_sounds w ++ [(Number_toString now, file_name f)]).
Proof.
  intros Hp Hf.
  destruct (addSound_appends r f now w Hp Hf) as (Hs & Hh & Hfresh).
  split_and!.
  - unfold_m. simpl. rewrite Hp, Hf. simpl. by perf.
  - by rewrite Hh, lookup_insert_eq.
  - done.
  - unfold voices. rewrite Hh.
    rewrite map_filter_insert_False by (simpl; discriminate).
    by rewrite delete_id.
  - unfold render_grid, render_sounds. rewrite Hs.
    rewrite bool_decide_eq_false_2.
    + by rewrite map_app.
    + rewrite length_app. simpl. lia.
Qed.

Lemma addSound_success_witness :
  let r := {| pick_type := None; pick_canceled := Some false;
              pick_assets := Some [sample_file];
              pick_uri := None; pick_name := None |} in
  let w := horn_playing in
  performed (addSound (Normal r) (Normal tt) 2000) w =
    [EGetDocument; ECreateSound (file_uri sample_file); EDateNow; ESetSounds]
  /\ heap (exec (addSound (Normal r) (Normal tt) 2000) w)
       !! fresh (dom (heap w)) = Some fresh_status
  /\ heap w !! fresh (dom (heap w)) = None
  /\ voices (exec (addSound (Normal r) (Normal tt) 2000) w) = voices w
  /\ render_grid (exec (addSound (Normal r) (Normal tt) 2000) w) =
       Cards (render_sounds w ++
                [(Number_toString 2000, file_name sample_file)]).
Proof.
  intros r w. apply (addSound_success r sample_file 2000 w); reflexivity.
Defined.

(** ** The recorder over the life of the component *)

Lemma stream_inits_app (l k : list Effect) :
  stream_inits (l ++ k) = stream_inits l ++ stream_inits k.
Proof. apply omap_app. Qed.

(** No event initialises or reconfigures the recorder, or drops the
    listener. *)
Lemma step_recorder_setup (w : World) (ev : Event) :
  stream_config (step w ev) = stream_config w
  /\ data_listener (step w ev) = data_listener w
  /\ stream_inits (trace (step w ev)) = stream_inits (trace w).
Proof.
  destruct ev as [resp | pick load now | i | id | chunk | dt |];
    crush_step; rewrite ?stream_inits_app; simpl;
    by rewrite ?app_nil_r.
Qed.

(** X15.  Mounting initialises the recorder once, with the [options]
    literal (32000 Hz, one channel, 16 bits, source 6, buffer 4096),
    registers the 'data' listener and does not start recording; in every
    reachable state the recorder still has that one configuration and the
    listener, and [init] has been called exactly once. *)
Theorem recorder_initialised_once (w : World) :
  reachable w ->
  stream_config w = Some options
  /\ data_listener w = true
  /\ stream_inits (trace w) = [options]
  /\ (forall resp, recording (App_mounted resp) = false
                   /\ isMicOn (App_mounted resp) = false).
Proof.
  intros Hr. split_and!.
  - induction Hr as [resp | w ev Hr IH]; [by destruct resp |].
    by destruct (step_recorder_setup w ev) as (-> & _ & _).
  - induction Hr as [resp | w ev Hr IH]; [by destruct resp |].
    by destruct (step_recorder_setup w ev) as (_ & -> & _).
  - induction Hr as [resp | w ev Hr IH]; [by destruct resp |].
    by destruct (step_recorder_setup w ev) as (_ & _ & ->).
  - intros resp. by destruct resp.
Qed.

Lemma recorder_initialised_once_witness :
  stream_config horn_playing = Some options
  /\ data_listener horn_playing = true
  /\ stream_inits (trace horn_playing) = [options]
  /\ (forall resp, recording (App_mounted resp) = false
                   /\ isMicOn (App_mounted resp) = false).
Proof.
  apply (recorder_initialised_once horn_playing).
  unfold horn_playing. apply reachable_run, reachable_mounted.
Defined.

Lemma heard_playing (dt : nat) (m : gmap nat PlaybackStatus) (h : nat)
    (st : PlaybackStatus) :
  m !! h = Some st -> isLoaded st = true -> isPlaying st = true ->
  ClipAudio h (positionMillis st) dt ∈ heard dt m.
Proof.
  intros Hh Hl Hp. unfold heard. apply list_elem_of_omap.
  exists (h, st). split; [by apply elem_of_map_to_list |].
  simpl. by rewrite Hl, Hp.
Qed.

(** X16.  The cleanup run when the component leaves the screen stops the
    recorder and nothing else: the flag, the list and every sound object
    are as before, so a clip that was playing goes on playing and is
    heard as time passes, exactly as if the component were still there. *)
Theorem unmount_stops_recorder_only (w : World) (dt : nat) :
  mounted w = true ->
  recording (step w Unmount) = false
  /\ performed cleanup w = [EStreamStop]
  /\ heap (step w Unmount) = heap w
  /\ sounds (step w Unmount) = sounds w
  /\ isMicOn (step w Unmount) = isMicOn w
  /\ heap (step (step w Unmount) (Elapse dt)) = heap (step w (Elapse dt))
  /\ speaker (step (step w Unmount) (Elapse dt)) =
       speaker (step w (Elapse dt))
  /\ (forall h st,
        heap w !! h = Some st -> isLoaded st = true -> isPlaying st = true ->
        ClipAudio h (positionMillis st) dt ∈
          speaker (step (step w Unmount) (Elapse dt))).
Proof.
  intros Hm.
  assert (He : step w Unmount = exec cleanup w).
  { unfold step. by rewrite Hm. }
  rewrite He. split_and!; try (by unfold_m).
  - unfold_m. simpl. by perf.
  - intros h st Hh Hl Hp. unfold step, dispatch. unfold_m. simpl.
    apply elem_of_app. right. by apply heard_playing.
Qed.

Lemma unmount_stops_recorder_only_witness :
  let w := horn_playing in
  recording (step w Unmount) = false
  /\ performed cleanup w = [EStreamStop]
  /\ heap (step w Unmount) = heap w
  /\ sounds (step w Unmount) = sounds w
  /\ isMicOn (step w Unmount) = isMicOn w
  /\ heap (step (step w Unmount) (Elapse 20)) = heap (step w (Elapse 20))
  /\ speaker (step (step w Unmount) (Elapse 20)) =
       speaker (step w (Elapse 20))
  /\ (forall h st,
        heap w !! h = Some st -> isLoaded st = true -> isPlaying st = true ->
        ClipAudio h (positionMillis st) 20 ∈
          speaker (step (step w Unmount) (Elapse 20))).
Proof.
  intros w. apply (unmount_stops_recorder_only w 20). reflexivity.
Defined.

(** X17.  A sound object that has been unloaded is never loaded again,
    whatever happens next: no handler reloads it, and pressing play on it
    only logs the failure. *)
Theorem unloaded_never_reloaded (evs : list Event) (w : World) (h : nat)
    (st : PlaybackStatus) :
  heap w !! h = Some st ->
  isLoaded st = false ->
  exists st', heap (run evs w) !! h = Some st' /\ isLoaded st' = false.
Proof.
  revert w st. induction evs as [| ev evs IH]; intros w st Hh Hl; simpl.
  - eauto.
  - destruct (step_unloaded_stays w ev h st Hh Hl) as (st1 & Hh1 & Hl1).
    by eapply IH.
Qed.

Lemma unloaded_never_reloaded_witness :
  let w := exec (removeSound (sounds horn_playing) "1000") horn_playing in
  exists st',
    heap (run [PressAdd sample_pick (Normal tt) 3000; PressPlay 0] w) !! 0%nat
      = Some st'
    /\ isLoaded st' = false.
Proof.
  intros w.
  apply (unloaded_never_reloaded
           [PressAdd sample_pick (Normal tt) 3000; PressPlay 0] w 0%nat
           unloaded_status).
  - vm_compute. reflexivity.
  - reflexivity.
Defined.

(** ** The view *)

(** X18.  In every reachable state of the mounted component the whole
    microphone view follows the recorder: while it runs, the dot has the
    secondary colour, the text reads BROADCASTING, the button has its
    active style and the Mic icon, and the label reads TAP TO MUTE;
    while it does not, the dot is grey, the text reads READY, the button
    is plain with the MicOff icon, and the label reads TAP TO
    BROADCAST. *)
Theorem mic_view_follows_recorder (w : World) :
  reachable w ->
  mounted w = true ->
  render_mic w =
    if recording w then
      {| dot_color := "#03DAC6"; status_label := "BROADCASTING";
         button_active := true; icon := Mic; icon_color := "#000000";
         mic_label := "TAP TO MUTE" |}
    else
      {| dot_color := "#555"; status_label := "READY";
         button_active := false; icon := MicOff; icon_color := "#1E1E1E";
         mic_label := "TAP TO BROADCAST" |}.
Proof.
  intros Hr Hm.
  assert (Hinv : isMicOn w = recording w).
  { revert Hm. induction Hr as [resp | w ev Hr IH].
    - by destruct resp.
    - by apply step_flag_matches_recorder. }
  unfold render_mic, status_text. rewrite Hinv. by destruct (recording w).
Qed.

Lemma mic_view_follows_recorder_witness :
  let w := step (App_mounted Denied) (PressMic Granted) in
  render_mic w =
    if recording w then
      {| dot_color := "#03DAC6"; status_label := "BROADCASTING";
         button_active := true; icon := Mic; icon_color := "#000000";
         mic_label := "TAP TO MUTE" |}
    else
      {| dot_color := "#555"; status_label := "READY";
         button_active := false; icon := MicOff; icon_color := "#1E1E1E";
         mic_label := "TAP TO BROADCAST" |}.
Proof.
  intros w. apply (mic_view_follows_recorder w).
  - apply reachable_step. apply reachable_mounted.
  - reflexivity.
Defined.

(** ** The delete action of a card *)

Lemma unique_id_card (l : list Sound) (i : nat) (item : Sound) :
  NoDup (map sound_id l) ->
  l !! i = Some item ->
  List.find (fun s => bool_decide (sound_id s = sound_id item)) l = Some item
  /\ filter (fun s => sound_id s ≠ sound_id item) l = delete i l.
Proof.
  revert i. induction l as [| a l IH]; intros i Hnd Hi; [done |].
  simpl in Hnd. apply NoDup_cons in Hnd as [Ha Hnd].
  destruct i as [| i]; simpl in *.
  - injection Hi as ->. rewrite bool_decide_eq_true_2 by done.
    split; [done |].
    rewrite filter_cons_False by (intros Hne; by apply Hne).
    by apply filter_absent.
  - assert (Hne : sound_id a <> sound_id item).
    { intros Heq. apply Ha. rewrite Heq. apply list_elem_of_fmap.
      exists item. split; [done |]. by eapply list_elem_of_lookup_2. }
    destruct (IH i Hnd Hi) as [Hf Hfl].
    rewrite bool_decide_eq_false_2 by done. split; [done |].
    rewrite filter_cons_True by done. by rewrite Hfl.
Qed.

(** X19.  In a reachable state where the identifiers on the board are
    pairwise distinct, the delete action of the card at position [i]
    removes exactly that card, keeping the others in order, and unloads
    exactly that card's sound object; when the card was the only one, the
    grid shows the placeholder again. *)
Theorem pressDelete_removes_that_card (w : World) (i : nat) (item : Sound) :
  reachable w ->
  NoDup (ids w) ->
  sounds w !! i = Some item ->
  sounds (exec (pressDelete i) w) = delete i (sounds w)
  /\ heap (exec (pressDelete i) w) =
       <[soundObj item := unloaded_status]> (heap w)
  /\ performed (pressDelete i) w = [EUnloadAsync (soundObj item); ESetSounds]
  /\ (length (sounds w) = 1%nat ->
      render_grid (exec (pressDelete i) w) = EmptyState "No sounds loaded").
Proof.
  intros Hr Hnd Hi. unfold ids in Hnd.
  destruct (unique_id_card (sounds w) i item Hnd Hi) as [Hf Hfl].
  destruct (reachable_cards_loaded w Hr) as [_ Hld].
  destruct (Hld item) as (st & Hst & _).
  { by eapply list_elem_of_lookup_2. }
  assert (Hs : sounds (exec (pressDelete i) w) = delete i (sounds w)).
  { unfold pressDelete. unfold_m. simpl. rewrite Hi. simpl.
    rewrite Hf. simpl. by rewrite Hst. }
  split_and!.
  - done.
  - unfold pressDelete. unfold_m. simpl. rewrite Hi. simpl.
    rewrite Hf. simpl. by rewrite Hst.
  - unfold pressDelete. unfold_m. simpl. rewrite Hi. simpl.
    rewrite Hf. simpl. rewrite Hst. simpl. by perf.
  - intros Hlen. unfold render_grid. rewrite Hs.
    rewrite bool_decide_eq_true_2; [done |].
    destruct (sounds w) as [| a [| b l]]; simpl in *; try discriminate.
    by destruct i.
Qed.

Lemma pressDelete_removes_that_card_witness :
  sounds (exec (pressDelete 0) horn_playing) = delete 0%nat (sounds horn_playing)
  /\ heap (exec (pressDelete 0) horn_playing) =
       <[soundObj horn := unloaded_status]> (heap horn_playing)
  /\ performed (pressDelete 0) horn_playing =
       [EUnloadAsync (soundObj horn); ESetSounds]
  /\ (length (sounds horn_playing) = 1%nat ->
      render_grid (exec (pressDelete 0) horn_playing) =
        EmptyState "No sounds loaded").
Proof.
  apply (pressDelete_removes_that_card horn_playing 0 horn).
  - unfold horn_playing. apply reachable_run, reachable_mounted.
  - assert (E : ids horn_playing = ["1000"]) by (vm_compute; reflexivity).
    rewrite E. apply NoDup_singleton.
  - reflexivity.
Defined.
